(** * EV charging queue: the state handler of netlify/functions/state.js

    A shallow embedding of the handler and of the allocation engine it
    contains, followed by the properties of the specification that were
    checked against it.

    Conventions of the embedding.
    - JavaScript primitive values that the code compares with [===] or tests
      for truthiness (user ids, spot ids, preferences, spot types) are
      elements of [value]; numbers are integers ([Z]), on which the sums
      of the code are the sums of [Z] as long as they stay within the safe
      integers of JavaScript, of absolute value below 2^53.
    - A string is the sequence of the bytes of its UTF-8 encoding.
    - Arrays are lists; an object held in an array is identified with its
      position in the list, so that a mutation through a reference
      ([spot.userId = ...], [A.position = ...]) is an update of the list at
      that position.
    - [Date.now()] is an argument [now] of the engine.
    - The network calls of [readFromRepo] and [writeToRepo] are the two
      request constructors of [Fetch]; the handler is a program of that type
      and the reply of the store is the argument of its continuation. *)

From Stdlib Require Import ZArith String Ascii List Lia Permutation.
From stdpp Require Import base tactics option list numbers strings pretty gmap sorting.

Local Open Scope string_scope.
Local Open Scope Z_scope.
Local Open Scope list_scope.

(** ** JavaScript values *)

Inductive value : Type :=
| VUndefined
| VNull
| VBool (b : bool)
| VNum (n : Z)
| VStr (s : string).

#[global] Instance value_eq_dec : EqDecision value.
Proof. solve_decision. Defined.

(** [a === b] on primitive values. *)
Definition strict_eq (a b : value) : bool := bool_decide (a = b).

(** ToBoolean: [undefined], [null], [false], [0] and [''] are falsy. *)
Definition truthy (v : value) : bool :=
  match v with
  | VUndefined | VNull => false
  | VBool b => b
  | VNum n => negb (n =? 0)
  | VStr s => negb (String.eqb s "")
  end.

(** [a || b] on values. *)
Definition or_else (a b : value) : value := if truthy a then a else b.

(** Truthiness of an optional string ([undefined] or [''] are falsy). *)
Definition truthy_str (o : option string) : bool :=
  match o with
  | Some s => negb (String.eqb s "")
  | None => false
  end.

(** [a || b] where [b] is a string literal. *)
Definition str_or (o : option string) (d : string) : string :=
  match o with
  | Some s => if String.eqb s "" then d else s
  | None => d
  end.

(** ** Array and string methods used by the handler *)

Module JS.

Section Arrays.
Context {A : Type}.

(** [l.some(p)] *)
Fixpoint some (p : A -> bool) (l : list A) : bool :=
  match l with
  | [] => false
  | x :: t => if p x then true else some p t
  end.

(** [l.find(p)]: the first element satisfying [p], or [undefined]. *)
Fixpoint find (p : A -> bool) (l : list A) : option A :=
  match l with
  | [] => None
  | x :: t => if p x then Some x else find p t
  end.

(** [l.find(p)] when the result is used as a reference into [l]: the
    element together with its place in the array. *)
Fixpoint find_ref (p : A -> bool) (l : list A) : option (nat * A) :=
  match l with
  | [] => None
  | x :: t =>
      if p x then Some (O, x)
      else match find_ref p t with
           | Some (i, y) => Some (S i, y)
           | None => None
           end
  end.

(** [l.findIndex(p)]: the first index satisfying [p], or [-1]. *)
Fixpoint findIndex (p : A -> bool) (l : list A) : Z :=
  match l with
  | [] => -1
  | x :: t =>
      if p x then 0
      else let r := findIndex p t in
           if r <? 0 then -1 else r + 1
  end.

(** [l.filter(p)] *)
Fixpoint filter (p : A -> bool) (l : list A) : list A :=
  match l with
  | [] => []
  | x :: t => if p x then x :: filter p t else filter p t
  end.

(** [l.filter(p)] when the elements of the result are used as references
into [l]: the places in [l] of the elements that satisfy [p], counted
from [start]. *)
Fixpoint filter_refs (p : A -> bool) (l : list A) (start : nat) : list nat :=
  match l with
  | [] => []
  | x :: t =>
      if p x then start :: filter_refs p t (S start) else filter_refs p t (S start)
  end.

(** [l[i]] for an integer index. *)
Definition at_ (l : list A) (i : Z) : option A :=
  if i <? 0 then None else l !! Z.to_nat i.

(** The array left by [l.splice(i, 1)] for [0 <= i]. *)
Definition splice1 (l : list A) (i : Z) : list A := delete (Z.to_nat i) l.

(** [l.push(x)] *)
Definition push (l : list A) (x : A) : list A := l ++ [x].

(** [l.sort(cmp)]: the sort is stable; [cmp a b <= 0] keeps [a] before
    [b]. The array is sorted in place and returned. *)
Fixpoint insert_sorted (cmp : A -> A -> Z) (x : A) (l : list A) : list A :=
  match l with
  | [] => [x]
  | h :: t => if cmp x h <=? 0 then x :: h :: t else h :: insert_sorted cmp x t
  end.

Fixpoint sort (cmp : A -> A -> Z) (l : list A) : list A :=
  match l with
  | [] => []
  | x :: t => insert_sorted cmp x (sort cmp t)
  end.
End Arrays.

(** [Math.max(x, ...xs)] *)
Definition Math_max (x : Z) (xs : list Z) : Z := fold_left Z.max xs x.

(** The characters removed by [trim], each as the bytes of its UTF-8
    encoding: the WhiteSpace and LineTerminator code points of ECMAScript,
    that is TAB, LF, VT, FF, CR, SPACE, U+00A0, U+1680, U+2000 to U+200A,
    U+2028, U+2029, U+202F, U+205F, U+3000 and U+FEFF. *)
Definition white_space : list (list ascii) :=
  map (map ascii_of_nat)
    [ [9]; [10]; [11]; [12]; [13]; [32];
      [194; 160];
      [225; 154; 128];
      [226; 128; 128]; [226; 128; 129]; [226; 128; 130]; [226; 128; 131];
      [226; 128; 132]; [226; 128; 133]; [226; 128; 134]; [226; 128; 135];
      [226; 128; 136]; [226; 128; 137]; [226; 128; 138];
      [226; 128; 168]; [226; 128; 169];
      [226; 128; 175];
      [226; 129; 159];
      [227; 128; 128];
      [239; 187; 191] ]%nat.

(** What is left of [s] after its prefix [w], if [w] is a prefix of [s]. *)
Fixpoint drop_prefix (w s : list ascii) : option (list ascii) :=
  match w, s with
  | [], _ => Some s
  | a :: w', b :: s' => if Ascii.eqb a b then drop_prefix w' s' else None
  | _ :: _, [] => None
  end.

(** What is left of [s] after one character of [ws] at its head. *)
Fixpoint strip_one (ws : list (list ascii)) (s : list ascii) : option (list ascii) :=
  match ws with
  | [] => None
  | w :: ws' =>
      match drop_prefix w s with
      | Some r => Some r
      | None => strip_one ws' s
      end
  end.

(** At most [n] characters of [ws] removed from the head of [s]. *)
Fixpoint strip_fuel (ws : list (list ascii)) (n : nat) (s : list ascii) : list ascii :=
  match n with
  | O => s
  | S n' =>
      match strip_one ws s with
      | Some r => strip_fuel ws n' r
      | None => s
      end
  end.

(** Every leading character of [ws] removed: each one takes a byte at
    least, so the length of [s] bounds their number. *)
Definition strip_all (ws : list (list ascii)) (s : list ascii) : list ascii :=
  strip_fuel ws (length s) s.

(** [s.trimStart()] *)
Definition trimStart (s : string) : string :=
  string_of_list_ascii (strip_all white_space (list_ascii_of_string s)).

(** [s.trimEnd()]: the trailing white space of [s] is the leading white
    space of [s] read backwards. *)
Definition trimEnd (s : string) : string :=
  string_of_list_ascii
    (reverse (strip_all (reverse <$> white_space) (reverse (list_ascii_of_string s)))).

(** [s.trim()] *)
Definition trim (s : string) : string := trimEnd (trimStart s).

Definition upper (c : ascii) : ascii :=
  let n := nat_of_ascii c in
  if ((97 <=? n)%nat && (n <=? 122)%nat)%bool then ascii_of_nat (n - 32) else c.

(** [s.toUpperCase()] on ASCII letters. *)
Fixpoint toUpperCase (s : string) : string :=
  match s with
  | EmptyString => EmptyString
  | String c t => String (upper c) (toUpperCase t)
  end.

End JS.

(** ** The state document *)

Record User := mkUser { u_id : value; u_name : string; u_pref : value }.

Record Spot := mkSpot {
  s_id : value; s_type : value; s_label : string; s_userId : value }.

Record QueueEntry := mkEntry { q_id : value; q_userId : value; q_position : Z }.

Record State := mkState {
  users : list User;
  queue : list QueueEntry;
  spots : list Spot;
  lastReset : value }.

#[global] Instance User_eq_dec : EqDecision User.
Proof. solve_decision. Defined.
#[global] Instance Spot_eq_dec : EqDecision Spot.
Proof. solve_decision. Defined.
#[global] Instance QueueEntry_eq_dec : EqDecision QueueEntry.
Proof. solve_decision. Defined.
#[global] Instance State_eq_dec : EqDecision State.
Proof. solve_decision. Defined.

(** [spot.userId = v] *)
Definition set_userId (sp : Spot) (v : value) : Spot :=
  {| s_id := s_id sp; s_type := s_type sp; s_label := s_label sp; s_userId := v |}.

(** [e.position = p] *)
Definition set_position (e : QueueEntry) (p : Z) : QueueEntry :=
  {| q_id := q_id e; q_userId := q_userId e; q_position := p |}.

Definition set_users (j : State) (us : list User) : State :=
  {| users := us; queue := queue j; spots := spots j; lastReset := lastReset j |}.

Definition set_queue (j : State) (q : list QueueEntry) : State :=
  {| users := users j; queue := q; spots := spots j; lastReset := lastReset j |}.

Definition set_spots (j : State) (sps : list Spot) : State :=
  {| users := users j; queue := queue j; spots := sps; lastReset := lastReset j |}.

Definition defaultState : State :=
  {| users := [];
     queue := [];
     spots :=
       [ mkSpot (VStr "tesla-1") (VStr "Tesla") "Tesla #1" VNull;
         mkSpot (VStr "tesla-2") (VStr "Tesla") "Tesla #2" VNull;
         mkSpot (VStr "chargepoint-1") (VStr "ChargePoint") "ChargePoint #1" VNull;
         mkSpot (VStr "chargepoint-2") (VStr "ChargePoint") "ChargePoint #2" VNull ];
     lastReset := VNull |}.

Definition eligible (pref type : value) : bool :=
  strict_eq pref (VStr "Both") || strict_eq pref type.

(** ** The allocation engine

    The branches of the handler's [if (action === ...)] chain, each as a
    function of the document read from the store. *)

(** [body.payload]. The fields the handler reads; [p_doc] is the payload
    seen as a document, which only [writeAll] does. [p_delta] is an integer
    when present. *)
Record Payload := mkPayload {
  p_name : value;
  p_pref : value;
  p_userId : value;
  p_delta : option Z;
  p_spotId : value;
  p_doc : State }.

(** [body.payload || {}]: every field of [{}] is [undefined]. *)
Definition empty_payload : Payload :=
  {| p_name := VUndefined; p_pref := VUndefined; p_userId := VUndefined;
     p_delta := None; p_spotId := VUndefined;
     p_doc := mkState [] [] [] VUndefined |}.

(** How a branch ends: it falls through to [writeToRepo] with the document
    [json], returns [bad(status, msg)], or throws. *)
Inductive Outcome : Type :=
| Next (json : State)
| Bad (status : Z) (msg : string)
| Throw (msg : string).

(** [(json.spots || []).some(s => s.userId === userId)] *)
Definition onCharger (json : State) (userId : value) : bool :=
  JS.some (fun s => strict_eq (s_userId s) userId) (spots json).

(** [(json.queue || []).some(q => q.userId === userId)] *)
Definition inQueue (json : State) (userId : value) : bool :=
  JS.some (fun q => strict_eq (q_userId q) userId) (queue json).

Definition addUser (now : Z) (payload : Payload) (json : State) : Outcome :=
  match or_else (p_name payload) (VStr "") with
  | VStr s =>
      let name := JS.trim s in
      let pref := or_else (p_pref payload) (VStr "Both") in
      if String.eqb name "" then Bad 400 "Name required"
      else
        let nextId := now in
        Next (set_users json (JS.push (users json) (mkUser (VNum nextId) name pref)))
  | _ => Throw "(payload.name || '').trim is not a function"
  end.

(** [nextPos] is a sum of numbers of the code; it is the sum of [Z] here,
    which is the code's as long as the largest position is a safe integer
    ([safe_positions] below). *)
Definition addToQueue (now : Z) (payload : Payload) (json : State) : Outcome :=
  let userId := p_userId payload in
  if negb (truthy userId) then Bad 400 "userId required"
  else
    if negb (onCharger json userId) && negb (inQueue json userId) then
      let nextPos :=
        match queue json with
        | [] => 0
        | e :: es => JS.Math_max (q_position e) (map q_position es)
        end + 1 in
      Next (set_queue json (JS.push (queue json) (mkEntry (VNum now) userId nextPos)))
    else Next json.

Definition removeFromQueue (payload : Payload) (json : State) : State :=
  let userId := p_userId payload in
  set_queue json (JS.filter (fun q => negb (strict_eq (q_userId q) userId)) (queue json)).

(** The comparator of [moveQueue]: [(a, b) => a.position - b.position]. *)
Definition by_position (a b : QueueEntry) : Z := q_position a - q_position b.

(** [json.queue.sort(...)] sorts the array of the document itself; [A] and
    [B] are the entries at [idx] and [to] of that array, and the two
    assignments to [position] are made in the order of the source. *)
Definition moveQueue (payload : Payload) (json : State) : State :=
  let userId := p_userId payload in
  let delta := default 0 (p_delta payload) in
  let q := JS.sort by_position (queue json) in
  let idx := JS.findIndex (fun e => strict_eq (q_userId e) userId) q in
  let to := idx + delta in
  if (0 <=? idx) && (0 <=? to) && (to <? Z.of_nat (length q)) then
    match JS.at_ q idx, JS.at_ q to with
    | Some A, Some B =>
        let t := q_position A in
        let q1 := alter (fun A => set_position A (q_position B)) (Z.to_nat idx) q in
        let q2 := alter (fun B => set_position B t) (Z.to_nat to) q1 in
        set_queue json q2
    | _, _ => set_queue json q
    end
  else set_queue json q.

(** The callback of [json.queue.findIndex] in [endSession] and [fillSpots]:
    [u && eligible(u.pref, spot.type)] with
    [u = json.users.find(x => x.id === q.userId)]. *)
Definition matches (us : list User) (spot : Spot) (q : QueueEntry) : bool :=
  match JS.find (fun x => strict_eq (u_id x) (q_userId q)) us with
  | Some u => eligible (u_pref u) (s_type spot)
  | None => false
  end.

(** The four lines shared by [endSession] and [fillSpots]: the index of the
    first matching entry; when there is one, the entry is spliced out of
    the queue and its user written to the spot. Returns the spot and the
    queue after the step. *)
Definition backfill (us : list User) (spot : Spot) (q : list QueueEntry)
  : Spot * list QueueEntry :=
  let idx := JS.findIndex (matches us spot) q in
  if 0 <=? idx then
    match JS.at_ q idx with
    | Some entry => (set_userId spot (q_userId entry), JS.splice1 q idx)
    | None => (spot, q)
    end
  else (spot, q).

Definition endSession (payload : Payload) (json : State) : State :=
  let spotId := p_spotId payload in
  match JS.find_ref (fun s => strict_eq (s_id s) spotId) (spots json) with
  | Some (i, spot) =>
      let spot := set_userId spot VNull in
      let '(spot, q) := backfill (users json) spot (queue json) in
      {| users := users json; queue := q;
         spots := <[i := spot]> (spots json); lastReset := lastReset json |}
  | None => json
  end.

(** One iteration of the loop of [fillSpots]: [spot] is the object at place
    [i] of [json.spots]; [sps] and [q] are the spots and the queue of the
    document as the previous iterations left them. *)
Definition fillStep (us : list User) (st : list Spot * list QueueEntry) (i : nat)
  : list Spot * list QueueEntry :=
  let '(sps, q) := st in
  match sps !! i with
  | Some spot =>
      let '(spot, q) := backfill us spot q in
      (<[i := spot]> sps, q)
  | None => (sps, q)
  end.

(** [for (const spot of json.spots.filter(s => !s.userId)) { ... }]: the
    filtered array is built once, before the loop, and holds the spot
    objects of [json.spots] themselves, so that the loop writes to the
    spots of the document. *)
Definition fillSpots (json : State) : State :=
  let empty := JS.filter_refs (fun s => negb (truthy (s_userId s))) (spots json) O in
  let '(sps, q) := fold_left (fillStep (users json)) empty (spots json, queue json) in
  {| users := users json; queue := q; spots := sps; lastReset := lastReset json |}.

Definition clearQueue (json : State) : State := set_queue json [].

Definition writeAll (payload : Payload) (json : State) : State := p_doc payload.

(** The whole chain, from [if (action === 'addUser')] to the final [else]. *)
Definition applyAction (now : Z) (action : value) (payload : Payload) (json : State)
  : Outcome :=
  if strict_eq action (VStr "addUser") then addUser now payload json
  else if strict_eq action (VStr "addToQueue") then addToQueue now payload json
  else if strict_eq action (VStr "removeFromQueue") then Next (removeFromQueue payload json)
  else if strict_eq action (VStr "moveQueue") then Next (moveQueue payload json)
  else if strict_eq action (VStr "endSession") then Next (endSession payload json)
  else if strict_eq action (VStr "fillSpots") then Next (fillSpots json)
  else if strict_eq action (VStr "clearQueue") then Next (clearQueue json)
  else if strict_eq action (VStr "writeAll") then Next (writeAll payload json)
  else Bad 400 "Unknown action".

(** ** Programs that call the store

    [readFromRepo] and [writeToRepo] each make one request to the store and
    wait for the reply. A program is a tree of such requests: it returns,
    throws, or makes a request and continues with the reply. *)

(** What the handler reads of the reply to the GET request: the status,
    and, for a reply that decodes, the parsed content and [j.sha]. *)
Record GetReply := mkGetReply {
  get_status : Z;
  get_contents : option (State * string) }.

(** The body of the PUT request of [writeToRepo]; [put_sha] is present
    when [body.sha] was set. *)
Record PutBody := mkPutBody {
  put_message : string;
  put_content : State;
  put_sha : option string }.

Inductive Fetch (A : Type) : Type :=
| Ret (a : A)
| Raise (msg : string)
| Get (url token : string) (k : GetReply -> Fetch A)
| Put (url token : string) (b : PutBody) (k : Z -> Fetch A).

Arguments Ret {A} a.
Arguments Raise {A} msg.
Arguments Get {A} url token k.
Arguments Put {A} url token b k.

Fixpoint bind {A B : Type} (m : Fetch A) (f : A -> Fetch B) : Fetch B :=
  match m with
  | Ret a => f a
  | Raise msg => Raise msg
  | Get url token k => Get url token (fun r => bind (k r) f)
  | Put url token b k => Put url token b (fun r => bind (k r) f)
  end.

(** [try { m } catch (err) { h(err.message) }] *)
Fixpoint try_catch {A : Type} (m : Fetch A) (h : string -> Fetch A) : Fetch A :=
  match m with
  | Ret a => Ret a
  | Raise msg => h msg
  | Get url token k => Get url token (fun r => try_catch (k r) h)
  | Put url token b k => Put url token b (fun r => try_catch (k r) h)
  end.

#[global] Instance Fetch_ret : MRet Fetch := fun A a => Ret a.
#[global] Instance Fetch_bind : MBind Fetch := fun A B f m => bind m f.

(** [r.ok]: the status is in the range 200-299. *)
Definition ok (status : Z) : bool := (200 <=? status) && (status <=? 299).

Definition contents_url (owner repo path : string) : string :=
  "https://api.github.com/repos/" +:+ owner +:+ "/" +:+ repo +:+ "/contents/" +:+ path.

(** Returns [{ json, sha }]; both are [null] when the store answers 404. A
    reply that does not decode makes [r.json()] or [JSON.parse] throw. *)
Definition readFromRepo (owner repo path token : string)
  : Fetch (option State * option string) :=
  let url := contents_url owner repo path in
  Get url token (fun r =>
    if get_status r =? 404 then Ret (None, None)
    else if negb (ok (get_status r)) then
      Raise ("Repo read failed: " +:+ pretty (get_status r))
    else
      match get_contents r with
      | Some (json, sha) => Ret (Some json, Some sha)
      | None => Raise "Unexpected end of JSON input"
      end).

Definition writeToRepo (owner repo path token : string) (json : State)
  (sha : option string) : Fetch unit :=
  let url := contents_url owner repo path in
  let body :=
    {| put_message := "EV state update";
       put_content := json;
       put_sha := if truthy_str sha then sha else None |} in
  Put url token body (fun status =>
    if negb (ok status) then
      Raise ("Repo write failed: " +:+ pretty status)
    else Ret tt).

(** ** The handler *)

Record Env := mkEnv {
  GH_TOKEN : option string;
  GH_OWNER : option string;
  GH_REPO : option string;
  GH_PATH : option string;
  INTERNAL_KEY : option string }.

(** [event.headers['x-key']] and [event.headers['X-Key']]. *)
Record Headers := mkHeaders { x_key : option string; X_Key : option string }.

(** [event.body]: absent, a text that [JSON.parse] rejects, or a text that
    parses to an object with the fields [action] and [payload]. *)
Inductive RequestBody : Type :=
| NoBody
| Unparsable (msg : string)
| Parsed (action : value) (payload : option Payload).

Record Event := mkEvent {
  httpMethod : option string;
  headers : option Headers;
  body : RequestBody }.

(** The body of a response: [JSON.stringify(json)],
    [JSON.stringify({ ok: true })] or a plain message. *)
Inductive Content : Type :=
| JsonState (json : State)
| JsonOk
| Plain (msg : string).

Record Response := mkResponse {
  statusCode : Z;
  contentType : string;
  content : Content }.

Definition bad (status : Z) (msg : string) : Response :=
  {| statusCode := if status =? 0 then 500 else status;
     contentType := "text/plain";
     content := Plain msg |}.

(** [event.headers && (event.headers['x-key'] || event.headers['X-Key'])] *)
Definition headerKey (event : Event) : option string :=
  match headers event with
  | Some h => if truthy_str (x_key h) then x_key h else X_Key h
  | None => None
  end.

(** The part of the handler after the read, for a POST request. *)
Definition post (now : Z) (owner repo path token : string) (event : Event)
  (json : State) (sha : option string) : Fetch Response :=
  '(action, payload) ←
    match body event with
    | NoBody => Ret (VUndefined, empty_payload)
    | Unparsable msg => Raise msg
    | Parsed action payload => Ret (action, default empty_payload payload)
    end;
  match applyAction now action payload json with
  | Bad status msg => Ret (bad status msg)
  | Throw msg => Raise msg
  | Next json =>
      _ ← writeToRepo owner repo path token json sha;
      Ret {| statusCode := 200; contentType := "application/json"; content := JsonOk |}
  end.

Definition handler (now : Z) (env : Env) (event : Event) : Fetch Response :=
  try_catch
    (let token := GH_TOKEN env in
     let owner := GH_OWNER env in
     let repo := GH_REPO env in
     let path := str_or (GH_PATH env) "state.json" in
     let key := str_or (INTERNAL_KEY env) "" in
     match token, owner, repo with
     | Some token, Some owner, Some repo =>
         if String.eqb token "" || String.eqb owner "" || String.eqb repo "" then
           Ret (bad 400 "Missing env configuration")
         else
           let method := JS.toUpperCase (str_or (httpMethod event) "GET") in
           if String.eqb method "POST" && negb (String.eqb key "")
              && negb (bool_decide (headerKey event = Some key)) then
             Ret (bad 403 "Forbidden")
           else
             '(json, sha) ← readFromRepo owner repo path token;
             let json := default defaultState json in
             if String.eqb method "GET" then
               Ret {| statusCode := 200; contentType := "application/json";
                      content := JsonState json |}
             else if negb (String.eqb method "POST") then
               Ret (bad 405 "Method not allowed")
             else post now owner repo path token event json sha
     | _, _, _ => Ret (bad 400 "Missing env configuration")
     end)
    (fun msg => Ret (bad 500 ("Error: " +:+ msg))).

(** ** Serving the requests of a program

    A store, whatever it is, is a state [S] with the replies it gives to
    the two requests; a PUT request may change the state. *)

Section Serving.
Context {S A : Type}.
Variable get : S -> string -> GetReply.
Variable put : S -> string -> PutBody -> S * Z.

(** One request of a program served by the store. *)
Definition step (st : S) (p : Fetch A) : S * Fetch A :=
  match p with
  | Get url token k => (st, k (get st url))
  | Put url token b k => let '(st', status) := put st url b in (st', k status)
  | _ => (st, p)
  end.

(** A program run to its end against the store: the state of the store
    it leaves and its result, or the message of the exception it threw. *)
Fixpoint run (st : S) (p : Fetch A) : S * (A + string) :=
  match p with
  | Ret a => (st, inl a)
  | Raise msg => (st, inr msg)
  | Get url token k => run st (k (get st url))
  | Put url token b k => let '(st', status) := put st url b in run st' (k status)
  end.
End Serving.

(** ** The store

    The store is the external collaborator of section 4.3 of the
    specification (the GitHub Contents API in the deployment); it is not
    code of the repository. *)

(** Modelled from the spec: the versioned object store. It holds at most
    one object per location, each a document with its version token. *)
Definition Store : Type := gmap string (State * string).

(** Modelled from the spec: [read() -> (document | null, versionToken | null)];
    a location without an object answers 404. *)
Definition store_get (st : Store) (url : string) : GetReply :=
  match st !! url with
  | Some (doc, v) => mkGetReply 200 (Some (doc, v))
  | None => mkGetReply 404 None
  end.

(** Modelled from the spec: [write(document, versionToken | null)]. The
    write is accepted when the token it carries is the current version of
    the object (no token when there is no object); otherwise it fails with
    Conflict (409) and the store stays as it was. The token of an accepted
    write is chosen by the store: [version_of]. *)
Definition store_put (version_of : State -> string) (st : Store) (url : string)
  (b : PutBody) : Store * Z :=
  if bool_decide (snd <$> st !! url = put_sha b) then
    (<[url := (put_content b, version_of (put_content b))]> st,
     match st !! url with Some _ => 200 | None => 201 end)
  else (st, 409).

(** The PUT requests a program makes when the store answers with the
    replies [gets] to its GET requests and the statuses [puts] to its PUT
    requests (404 and 200 when a list runs out). *)
Fixpoint writes {A : Type} (p : Fetch A) (gets : list GetReply) (puts : list Z)
  : list PutBody :=
  match p with
  | Ret _ | Raise _ => []
  | Get url token k =>
      match gets with
      | r :: gets' => writes (k r) gets' puts
      | [] => writes (k (mkGetReply 404 None)) [] puts
      end
  | Put url token b k =>
      match puts with
      | s :: puts' => b :: writes (k s) gets puts'
      | [] => b :: writes (k 200) gets []
      end
  end.

(** ** Properties of documents *)

(** No user both occupies a spot and has a queue entry. *)
Definition no_double_placement (json : State) : Prop :=
  ∀ userId, ¬ (onCharger json userId = true ∧ inQueue json userId = true).

(** The users of the queue entries, in the order of the array. *)
Definition queued_users (json : State) : list value := q_userId <$> queue json.

(** The occupants of the spots ([null] for a free spot). *)
Definition occupants (json : State) : list value := s_userId <$> spots json.

(** At most one queue entry per user. *)
Definition one_entry_per_user (json : State) : Prop := NoDup (queued_users json).

(** Every queue entry names a user: no [userId] in the queue is [null]. *)
Definition queue_names_users (json : State) : Prop := VNull ∉ queued_users json.

(** The invariants of the queue that the engine maintains. *)
Definition consistent (json : State) : Prop :=
  one_entry_per_user json ∧ queue_names_users json ∧ no_double_placement json.

(** The queue is in priority order: positions ascend along the array. *)
Definition in_priority_order (q : list QueueEntry) : Prop :=
  Sorted (fun a b => q_position a <= q_position b) q.

(** A queue entry whose [userId] is the id of no user. *)
Definition dangling (us : list User) (q : QueueEntry) : bool :=
  negb (JS.some (fun x => strict_eq (u_id x) (q_userId q)) us).

(** The document held after a branch of the engine ends: the one to be
    written, or the one that was read when nothing is written. *)
Definition after (o : Outcome) (json : State) : State :=
  match o with
  | Next json' => json'
  | Bad _ _ | Throw _ => json
  end.

(** A sequence of calls of the engine, each on the document the previous
    one left. *)
Definition replay (calls : list (Z * value * Payload)) (json : State) : State :=
  fold_left (fun json '(now, action, payload) =>
               after (applyAction now action payload json) json) calls json.

(** The backfill as the specification words it: the queue is scanned in
    priority order (lowest position first, ties by document order) for the
    first entry whose user is eligible for the spot's type. *)
Definition spec_pick (us : list User) (spot : Spot) (q : list QueueEntry)
  : option QueueEntry :=
  JS.find (matches us spot) (JS.sort by_position q).

(** [endSession] as the specification words it, on the spot the call
    names: afterwards the spot's userId is [null], or it is the userId of
    the entry of [spec_pick], and that entry has left the queue, once, all
    other entries being as they were. *)
Definition endSession_as_specified (payload : Payload) (json json' : State) : Prop :=
  ∀ i spot,
    JS.find_ref (fun s => strict_eq (s_id s) (p_spotId payload)) (spots json)
      = Some (i, spot) →
    ∃ spot',
      spots json' !! i = Some spot'
      ∧ ((s_userId spot' = VNull ∧ queue json' = queue json)
         ∨ ∃ e k,
             spec_pick (users json) spot (queue json) = Some e
             ∧ s_userId spot' = q_userId e
             ∧ queue json !! k = Some e
             ∧ queue json' = delete k (queue json)).

(** The loop of [fillSpots] as a recursion over the spots: a spot with a
    truthy [userId] is passed over, any other goes through [backfill], and
    the queue is threaded from one spot to the next. [fillSpots_fillLoop]
    shows that this is what [fillSpots] computes. *)
Fixpoint fillLoop (us : list User) (sps : list Spot) (q : list QueueEntry)
  : list Spot * list QueueEntry :=
  match sps with
  | [] => ([], q)
  | spot :: rest =>
      if negb (truthy (s_userId spot)) then
        let '(spot', q') := backfill us spot q in
        let '(rest', q'') := fillLoop us rest q' in
        (spot' :: rest', q'')
      else
        let '(rest', q'') := fillLoop us rest q in
        (spot :: rest', q'')
  end.

(** The entry that [backfill] takes from the queue, if any. *)
Definition backfill_pick (us : list User) (spot : Spot) (q : list QueueEntry)
  : option QueueEntry :=
  let idx := JS.findIndex (matches us spot) q in
  if 0 <=? idx then JS.at_ q idx else None.

(** The entries that the loop of [fillSpots] takes from the queue, spot by
    spot: [None] for a spot that is skipped or finds no entry. *)
Fixpoint fillLoop_picks (us : list User) (sps : list Spot) (q : list QueueEntry)
  : list (option QueueEntry) :=
  match sps with
  | [] => []
  | spot :: rest =>
      if negb (truthy (s_userId spot)) then
        backfill_pick us spot q :: fillLoop_picks us rest (snd (backfill us spot q))
      else None :: fillLoop_picks us rest q
  end.

Definition fillSpots_picks (json : State) : list (option QueueEntry) :=
  fillLoop_picks (users json) (spots json) (queue json).

(** The entries taken, in the order of the spots that received them. *)
Definition picked (picks : list (option QueueEntry)) : list QueueEntry :=
  omap id picks.

(** What the loop of [fillSpots] does to one spot, given the entry it took
    for it: a spot without an entry is as before; a spot with an entry was
    empty, the entry matched it and its user is now on the spot. *)
Definition filled (us : list User) (sp : Spot) (pick : option QueueEntry) (sp' : Spot)
  : Prop :=
  match pick with
  | Some e =>
      truthy (s_userId sp) = false ∧ matches us sp e = true
      ∧ sp' = set_userId sp (q_userId e)
  | None => sp' = sp
  end.

(** A spot given to a registered user. *)
Definition given (us : list User) (sp sp' : Spot) : Prop :=
  ∃ u, u ∈ us ∧ sp' = set_userId sp (u_id u).

(** The location of the state document for a configuration. *)
Definition env_url (env : Env) : string :=
  contents_url (default "" (GH_OWNER env)) (default "" (GH_REPO env))
    (str_or (GH_PATH env) "state.json").

(** The configuration passes the first check of the handler. *)
Definition configured (env : Env) : bool :=
  truthy_str (GH_TOKEN env) && truthy_str (GH_OWNER env) && truthy_str (GH_REPO env).

(** The action and the payload the handler takes from the request, when
    the body parses. *)
Definition request (event : Event) : option (value * Payload) :=
  match body event with
  | NoBody => Some (VUndefined, empty_payload)
  | Unparsable _ => None
  | Parsed action payload => Some (action, default empty_payload payload)
  end.

(** The document the handler works on after a read that succeeded with the
    reply [r]: the content of the reply, or the default document on 404. *)
Definition read_document (r : GetReply) : State :=
  if get_status r =? 404 then defaultState
  else match get_contents r with
       | Some (json, _) => json
       | None => defaultState
       end.

(** The version token the handler holds after that read: [j.sha], or none
    on 404. *)
Definition read_token (r : GetReply) : option string :=
  if get_status r =? 404 then None
  else match get_contents r with
       | Some (_, sha) => Some sha
       | None => None
       end.

(** The body of the PUT request of the handler for the document [json],
    after a read that was answered with [r]. *)
Definition put_body (json : State) (r : GetReply) : PutBody :=
  {| put_message := "EV state update";
     put_content := json;
     put_sha := if truthy_str (read_token r) then read_token r else None |}.

(** The response to a failed write. *)
Definition write_failed (status : Z) : Response :=
  bad 500 ("Error: Repo write failed: " +:+ pretty status).

(** The program is about to send a PUT request. *)
Definition is_write {A : Type} (p : Fetch A) : bool :=
  match p with
  | Put _ _ _ _ => true
  | _ => false
  end.

(** The response to a read. *)
Definition state_response (json : State) : Response :=
  {| statusCode := 200; contentType := "application/json"; content := JsonState json |}.

(** The response of a successful write. *)
Definition ok_response : Response :=
  {| statusCode := 200; contentType := "application/json"; content := JsonOk |}.

(** The inputs on which the engine reports a validation error. *)
Definition invalid_input (action : value) (payload : Payload) : Prop :=
  (action = VStr "addUser"
   ∧ ∃ s, or_else (p_name payload) (VStr "") = VStr s ∧ JS.trim s = "")
  ∨ (action = VStr "addToQueue" ∧ truthy (p_userId payload) = false)
  ∨ action ∉ [VStr "addUser"; VStr "addToQueue"; VStr "removeFromQueue";
              VStr "moveQueue"; VStr "endSession"; VStr "fillSpots";
              VStr "clearQueue"; VStr "writeAll"].

(** ** Further properties of documents *)

(** Every queue entry has a truthy [userId]. *)
Definition queue_users_truthy (json : State) : Prop :=
  Forall (fun u => truthy u = true) (queued_users json).

(** No two queue entries have the same position. *)
Definition positions_distinct (json : State) : Prop :=
  NoDup (q_position <$> queue json).

(** What identifies a spot: everything but its occupant. *)
Definition spot_identity (sp : Spot) : value * value * string :=
  (s_id sp, s_type sp, s_label sp).

(** No call of the sequence is a [writeAll]. *)
Definition without_writeAll (calls : list (Z * value * Payload)) : Prop :=
  Forall (fun c => c.1.2 ≠ VStr "writeAll") calls.

(** What holds of every document the engine reaches from the default
    document: the invariants of the queue and the four spots of the
    default document. *)
Definition well_kept (json : State) : Prop :=
  consistent json ∧ positions_distinct json ∧ queue_users_truthy json
  ∧ spot_identity <$> spots json = spot_identity <$> spots defaultState.

(** The string starts with a white space character. *)
Definition starts_with_space (s : string) : bool :=
  bool_decide (is_Some (JS.strip_one JS.white_space (list_ascii_of_string s))).

(** The string ends with a white space character. *)
Definition ends_with_space (s : string) : bool :=
  bool_decide (is_Some (JS.strip_one (reverse <$> JS.white_space)
                          (reverse (list_ascii_of_string s)))).

(** Every position of the queue is a safe integer of JavaScript
    ([Number.isSafeInteger]): on these [Math.max(...) + 1] is computed
    without rounding, and is the sum of [addToQueue]. *)
Definition safe_positions (json : State) : Prop :=
  Forall (λ p, - 2 ^ 53 < p < 2 ^ 53) (q_position <$> queue json).

(** The key sent with the request is the configured one, or none is
    configured. *)
Definition key_accepted (env : Env) (event : Event) : bool :=
  String.eqb (str_or (INTERNAL_KEY env) "") ""
  || bool_decide (headerKey event = Some (str_or (INTERNAL_KEY env) "")).

(** The method of the request as the handler reads it. *)
Definition method_of (event : Event) : string :=
  JS.toUpperCase (str_or (httpMethod event) "GET").

(** What the read of the handler comes to for a reply [r] of the store:
    the document to work on ([defaultState()] on 404) with the token, or
    the message of the exception that [readFromRepo] throws. *)
Definition read_outcome (r : GetReply) : State * option string + string :=
  if get_status r =? 404 then inl (defaultState, None)
  else if negb (ok (get_status r)) then
    inr ("Repo read failed: " +:+ pretty (get_status r))
  else
    match get_contents r with
    | Some (json, sha) => inl (json, Some sha)
    | None => inr "Unexpected end of JSON input"
    end.

(** The catch clause of the handler. *)
Definition caught (msg : string) : Response := bad 500 ("Error: " +:+ msg).

(** ** Example documents and requests *)

Module Ex.

Definition alice : User := mkUser (VNum 1) "Alice" (VStr "Both").
Definition bob : User := mkUser (VNum 2) "Bob" (VStr "Both").

Definition for_user (userId : value) : Payload :=
  {| p_name := VUndefined; p_pref := VUndefined; p_userId := userId;
     p_delta := None; p_spotId := VUndefined; p_doc := p_doc empty_payload |}.

Definition named (name : string) : Payload :=
  {| p_name := VStr name; p_pref := VUndefined; p_userId := VUndefined;
     p_delta := None; p_spotId := VUndefined; p_doc := p_doc empty_payload |}.

(** The string of the code points U+00A0, U+2028 and U+FEFF. *)
Definition blank : string :=
  string_of_list_ascii
    (map ascii_of_nat [194; 160; 226; 128; 168; 239; 187; 191]%nat).

(** A name between U+00A0 and U+3000. *)
Definition padded : string :=
  string_of_list_ascii (map ascii_of_nat [194; 160]%nat)
  +:+ "Dana Scully"
  +:+ string_of_list_ascii (map ascii_of_nat [227; 128; 128]%nat).

Definition move (userId : value) (delta : Z) : Payload :=
  {| p_name := VUndefined; p_pref := VUndefined; p_userId := userId;
     p_delta := Some delta; p_spotId := VUndefined; p_doc := p_doc empty_payload |}.

Definition for_spot (spotId : string) : Payload :=
  {| p_name := VUndefined; p_pref := VUndefined; p_userId := VUndefined;
     p_delta := None; p_spotId := VStr spotId; p_doc := p_doc empty_payload |}.

(** Alice and Bob registered, queued in that order. *)
Definition queued : State :=
  {| users := [alice; bob];
     queue := [mkEntry (VNum 3) (VNum 1) 1; mkEntry (VNum 4) (VNum 2) 2];
     spots := spots defaultState;
     lastReset := VNull |}.

(** The document after Bob was moved up one place: the positions are
    exchanged, the array keeps Alice first. *)
Definition reordered : State :=
  {| users := [alice; bob];
     queue := [mkEntry (VNum 3) (VNum 1) 2; mkEntry (VNum 4) (VNum 2) 1];
     spots := spots defaultState;
     lastReset := VNull |}.

(** The scenario of the specification: Alice and Bob queued in that
    order while a third user holds the first spot. *)
Definition busy : State :=
  {| users := [alice; bob; mkUser (VNum 3) "Carol" (VStr "Tesla")];
     queue := [mkEntry (VNum 4) (VNum 1) 1; mkEntry (VNum 5) (VNum 2) 2];
     spots := [mkSpot (VStr "tesla-1") (VStr "Tesla") "Tesla #1" (VNum 3);
               mkSpot (VStr "tesla-2") (VStr "Tesla") "Tesla #2" VNull];
     lastReset := VNull |}.

(** Alice with two queue entries and no spot. *)
Definition duplicated : State :=
  {| users := [alice];
     queue := [mkEntry (VNum 3) (VNum 1) 1; mkEntry (VNum 4) (VNum 1) 2];
     spots := spots defaultState;
     lastReset := VNull |}.

(** One occupied spot and a queue entry whose [userId] is [null]. *)
Definition null_queued : State :=
  {| users := [alice];
     queue := [mkEntry (VNum 3) VNull 1];
     spots := [mkSpot (VStr "tesla-1") (VStr "Tesla") "Tesla #1" (VNum 1)];
     lastReset := VNull |}.

(** A spot whose [userId] is the number 0. *)
Definition zero_placed : State :=
  {| users := [mkUser (VNum 0) "Zero" (VStr "Both")];
     queue := [];
     spots := [mkSpot (VStr "tesla-1") (VStr "Tesla") "Tesla #1" (VNum 0)];
     lastReset := VNull |}.

(** Alice on a spot, Bob queued. *)
Definition charging : State :=
  {| users := [alice; bob];
     queue := [mkEntry (VNum 4) (VNum 2) 1];
     spots := [mkSpot (VStr "tesla-1") (VStr "Tesla") "Tesla #1" (VNum 1);
               mkSpot (VStr "tesla-2") (VStr "Tesla") "Tesla #2" VNull];
     lastReset := VNull |}.

(** A queue entry for a user that is not registered, before Bob's. *)
Definition with_stranger : State :=
  {| users := [alice; bob];
     queue := [mkEntry (VNum 5) (VNum 9) 1; mkEntry (VNum 4) (VNum 2) 2];
     spots := spots defaultState;
     lastReset := VNull |}.

(** The registrations, the two enqueuings and the move that lead from the
    default document to [reordered], with the clock of each call. *)
Definition history : list (Z * value * Payload) :=
  [ (1, VStr "addUser", named "Alice");
    (2, VStr "addUser", named "Bob");
    (3, VStr "addToQueue", for_user (VNum 1));
    (4, VStr "addToQueue", for_user (VNum 2));
    (5, VStr "moveQueue", move (VNum 2) (-1)) ].

Definition env : Env :=
  {| GH_TOKEN := Some "token"; GH_OWNER := Some "owner"; GH_REPO := Some "repo";
     GH_PATH := None; INTERNAL_KEY := None |}.

Definition POST (action : string) (payload : Payload) : Event :=
  {| httpMethod := Some "POST"; headers := None;
     body := Parsed (VStr action) (Some payload) |}.

Definition GET : Event :=
  {| httpMethod := Some "GET"; headers := None; body := NoBody |}.

(** A store that numbers its versions by the size of the document. *)
Definition version_of (json : State) : string :=
  "v" +:+ pretty (Z.of_nat (length (users json) + length (queue json))).

Definition store_at (json : State) (v : string) : Store :=
  {[ env_url env := (json, v) ]}.

End Ex.

(** * Properties *)

(** ** The array methods *)

Lemma strict_eq_true (a b : value) : strict_eq a b = true ↔ a = b.
Proof. unfold strict_eq. apply bool_decide_eq_true. Qed.

Lemma strict_eq_false (a b : value) : strict_eq a b = false ↔ a ≠ b.
Proof. unfold strict_eq. apply bool_decide_eq_false. Qed.

Lemma strict_eq_refl (a : value) : strict_eq a a = true.
Proof. by apply strict_eq_true. Qed.

Section ArrayFacts.
Context {A : Type}.
Implicit Types (p : A → bool) (l : list A).

Lemma some_true p l : JS.some p l = true ↔ ∃ x, x ∈ l ∧ p x = true.
Proof.
  induction l as [|y l IH]; simpl.
  - split; [done | intros (x & Hx & _); by apply elem_of_nil in Hx].
  - destruct (p y) eqn:Hy.
    + split; [intros _; exists y; split; [left | done] | done].
    + rewrite IH. split.
      * intros (x & Hx & Hp). exists x. split; [by right | done].
      * intros (x & Hx & Hp). apply elem_of_cons in Hx as [-> | Hx]; [congruence |].
        by exists x.
Qed.

Lemma some_false p l : JS.some p l = false ↔ ∀ x, x ∈ l → p x = false.
Proof.
  rewrite <- not_true_iff_false, some_true. split.
  - intros H x Hx. destruct (p x) eqn:Hp; [| done]. destruct H. by exists x.
  - intros H (x & Hx & Hp). rewrite (H x Hx) in Hp. done.
Qed.

Lemma filter_sublist p l : JS.filter p l `sublist_of` l.
Proof.
  induction l as [|y l IH]; simpl; [done |].
  destruct (p y); [by apply sublist_skip | by apply sublist_cons].
Qed.

Lemma findIndex_bounds p l : -1 <= JS.findIndex p l < Z.of_nat (length l).
Proof.
  induction l as [|y l IH]; simpl; [lia |].
  destruct (p y); [lia |].
  destruct (Z.ltb_spec (JS.findIndex p l) 0); lia.
Qed.

Lemma findIndex_none p l :
  JS.findIndex p l < 0 ↔ ∀ x, x ∈ l → p x = false.
Proof.
  induction l as [|y l IH]; simpl.
  - split; [intros _ x Hx; by apply elem_of_nil in Hx | lia].
  - destruct (p y) eqn:Hy.
    + split; [lia |]. intros H. rewrite (H y) in Hy; [done | left].
    + pose proof (findIndex_bounds p l) as Hb.
      destruct (Z.ltb_spec (JS.findIndex p l) 0) as [Hlt | Hge].
      * split; [| lia]. intros _ x Hx.
        apply elem_of_cons in Hx as [-> | Hx]; [done |]. by apply IH.
      * split; [lia |]. intros Hall.
        assert (JS.findIndex p l < 0); [| lia].
        apply IH. intros x Hx. apply Hall. by right.
Qed.

(** A found index is the place of the first element that satisfies the
    callback. *)
Lemma findIndex_found p l :
  0 <= JS.findIndex p l →
  ∃ x, l !! Z.to_nat (JS.findIndex p l) = Some x ∧ p x = true
       ∧ ∀ j y, (j < Z.to_nat (JS.findIndex p l))%nat → l !! j = Some y → p y = false.
Proof.
  induction l as [|y l IH]; simpl; [lia |].
  destruct (p y) eqn:Hy.
  - intros _. exists y. split; [done |]. split; [done |]. intros j z Hj. simpl in Hj. lia.
  - destruct (Z.ltb_spec (JS.findIndex p l) 0) as [Hlt | Hge]; [lia |].
    intros _. destruct (IH Hge) as (x & Hx & Hp & Hfirst).
    exists x. replace (Z.to_nat (JS.findIndex p l + 1)) with (S (Z.to_nat (JS.findIndex p l))) by lia.
    split; [done |]. split; [done |].
    intros [|j] z Hj Hz; simpl in Hz; [congruence |]. apply (Hfirst j); [lia | done].
Qed.

Lemma find_at_findIndex p l : JS.find p l = JS.at_ l (JS.findIndex p l).
Proof.
  unfold JS.at_. induction l as [|y l IH]; simpl; [done |].
  destruct (p y) eqn:Hy; [done |].
  pose proof (findIndex_bounds p l).
  destruct (Z.ltb_spec (JS.findIndex p l) 0) as [Hlt | Hge]; simpl.
  - by rewrite IH.
  - rewrite IH. destruct (Z.ltb_spec (JS.findIndex p l + 1) 0); [lia |].
    by replace (Z.to_nat (JS.findIndex p l + 1)) with (S (Z.to_nat (JS.findIndex p l))) by lia.
Qed.

Lemma find_ref_lookup p l i x :
  JS.find_ref p l = Some (i, x) → l !! i = Some x ∧ p x = true.
Proof.
  revert i. induction l as [|y l IH]; intros i; simpl; [done |].
  destruct (p y) eqn:Hy.
  - intros [= <- <-]. done.
  - destruct (JS.find_ref p l) as [[j z]|]; [| done].
    intros [= <- <-]. by apply IH.
Qed.
End ArrayFacts.

(** ** Sorting by position *)

Section SortFacts.
Context {A : Type} (cmp : A → A → Z).

Lemma insert_sorted_perm x (l : list A) : JS.insert_sorted cmp x l ≡ₚ x :: l.
Proof.
  induction l as [|h t IH]; simpl; [done |].
  destruct (cmp x h <=? 0); [done |].
  rewrite IH. apply Permutation_swap.
Qed.

Lemma sort_perm (l : list A) : JS.sort cmp l ≡ₚ l.
Proof.
  induction l as [|x t IH]; simpl; [done |].
  by rewrite insert_sorted_perm, IH.
Qed.

Lemma sort_length (l : list A) : length (JS.sort cmp l) = length l.
Proof. apply Permutation_length, sort_perm. Qed.
End SortFacts.

Lemma by_position_le (a b : QueueEntry) :
  (by_position a b <=? 0) = true ↔ q_position a <= q_position b.
Proof. unfold by_position. rewrite Z.leb_le. lia. Qed.

Lemma insert_in_priority_order (x : QueueEntry) (l : list QueueEntry) :
  in_priority_order l → in_priority_order (JS.insert_sorted by_position x l).
Proof.
  unfold in_priority_order.
  induction l as [|h t IH]; simpl; intros Hl.
  - by repeat constructor.
  - destruct (by_position x h <=? 0) eqn:Hc.
    + apply by_position_le in Hc. constructor; [done |]. by constructor.
    + assert (q_position h <= q_position x) as Hhx.
      { destruct (Z.leb_spec (by_position x h) 0); [done |]. unfold by_position in *. lia. }
      apply Sorted_inv in Hl as [Ht Hhd].
      constructor; [by apply IH |].
      destruct t as [|h' t']; simpl.
      * by constructor.
      * destruct (by_position x h' <=? 0); constructor; [done |].
        by apply HdRel_inv in Hhd.
Qed.

Lemma sort_in_priority_order (l : list QueueEntry) :
  in_priority_order (JS.sort by_position l).
Proof.
  induction l as [|x t IH]; simpl; [constructor |].
  by apply insert_in_priority_order.
Qed.

(** A queue that is already in priority order is left as it is. *)
Lemma sort_fixed (l : list QueueEntry) :
  in_priority_order l → JS.sort by_position l = l.
Proof.
  unfold in_priority_order.
  induction l as [|x t IH]; simpl; intros Hl; [done |].
  apply Sorted_inv in Hl as [Ht Hhd]. rewrite (IH Ht).
  destruct t as [|h t']; simpl; [done |].
  apply HdRel_inv in Hhd. apply by_position_le in Hhd. by rewrite Hhd.
Qed.

(** ** The backfill step *)

Lemma matches_user us spot q :
  matches us spot q = true →
  ∃ u, u ∈ us ∧ u_id u = q_userId q ∧ eligible (u_pref u) (s_type spot) = true.
Proof.
  unfold matches. rewrite find_at_findIndex. unfold JS.at_.
  set (p := fun x => strict_eq (u_id x) (q_userId q)).
  destruct (Z.ltb_spec (JS.findIndex p us) 0) as [Hlt | Hge]; [done |].
  destruct (findIndex_found p us Hge) as (u & Hu & Hp & _).
  rewrite Hu. intros He. exists u. split; [by eapply list_elem_of_lookup_2 |].
  split; [by apply strict_eq_true | done].
Qed.

Lemma matches_not_dangling us spot q : matches us spot q = true → dangling us q = false.
Proof.
  intros (u & Hu & Hid & _)%matches_user. unfold dangling.
  apply negb_false_iff, some_true. exists u. split; [done |]. by apply strict_eq_true.
Qed.

(** The two ways a backfill step ends: no entry matches and nothing
    changes, or the first matching entry leaves the queue for the spot. *)
Lemma backfill_cases us spot q :
  (backfill us spot q = (spot, q) ∧ backfill_pick us spot q = None
   ∧ ∀ e, e ∈ q → matches us spot e = false)
  ∨ (∃ k e, q !! k = Some e ∧ matches us spot e = true
            ∧ (∀ j y, (j < k)%nat → q !! j = Some y → matches us spot y = false)
            ∧ JS.findIndex (matches us spot) q = Z.of_nat k
            ∧ backfill us spot q = (set_userId spot (q_userId e), delete k q)
            ∧ backfill_pick us spot q = Some e).
Proof.
  unfold backfill, backfill_pick, JS.at_, JS.splice1.
  destruct (Z.leb_spec 0 (JS.findIndex (matches us spot) q)) as [Hge | Hlt].
  - right. destruct (findIndex_found _ _ Hge) as (e & He & Hm & Hfirst).
    exists (Z.to_nat (JS.findIndex (matches us spot) q)), e.
    destruct (Z.ltb_spec (JS.findIndex (matches us spot) q) 0); [lia |].
    rewrite He. repeat split; try done. lia.
  - left. repeat split; try done. by apply findIndex_none.
Qed.

(** ** The loop of fillSpots *)

(** The loop over the references, started after the spots [pre] that were
    already visited, is the recursion over the remaining spots. *)
Lemma fold_fillStep us sps : ∀ pre q,
  fold_left (fillStep us)
    (JS.filter_refs (fun s => negb (truthy (s_userId s))) sps (length pre))
    (pre ++ sps, q)
  = (pre ++ (fillLoop us sps q).1, (fillLoop us sps q).2).
Proof.
  induction sps as [|spot rest IH]; intros pre q; simpl; [done |].
  destruct (negb (truthy (s_userId spot))); simpl.
  - rewrite list_lookup_middle; [| done].
    destruct (backfill us spot q) as [spot' q'].
    replace (<[length pre := spot']> (pre ++ spot :: rest)) with ((pre ++ [spot']) ++ rest).
    2:{ rewrite <- (Nat.add_0_r (length pre)), insert_app_r. simpl.
        by rewrite <- app_assoc. }
    replace (S (length pre)) with (length (pre ++ [spot'])).
    2:{ rewrite length_app. simpl. lia. }
    rewrite IH. destruct (fillLoop us rest q') as [rest' q'']. simpl.
    by rewrite <- app_assoc.
  - replace (pre ++ spot :: rest) with ((pre ++ [spot]) ++ rest)
      by (by rewrite <- app_assoc).
    replace (S (length pre)) with (length (pre ++ [spot])).
    2:{ rewrite length_app. simpl. lia. }
    rewrite IH. destruct (fillLoop us rest q) as [rest' q'']. simpl.
    by rewrite <- app_assoc.
Qed.

Lemma fillSpots_fillLoop json :
  fillSpots json
  = {| users := users json;
       queue := (fillLoop (users json) (spots json) (queue json)).2;
       spots := (fillLoop (users json) (spots json) (queue json)).1;
       lastReset := lastReset json |}.
Proof.
  unfold fillSpots.
  pose proof (fold_fillStep (users json) (spots json) [] (queue json)) as H.
  simpl in H. by rewrite H.
Qed.

(** ** Placement and queueing *)

Lemma onCharger_occupant json u : onCharger json u = true ↔ u ∈ occupants json.
Proof.
  unfold onCharger, occupants. rewrite some_true, list_elem_of_fmap. split.
  - intros (s & Hs & Heq). apply strict_eq_true in Heq. by exists s.
  - intros (s & -> & Hs). exists s. by rewrite strict_eq_refl.
Qed.

Lemma inQueue_queued json u : inQueue json u = true ↔ u ∈ queued_users json.
Proof.
  unfold inQueue, queued_users. rewrite some_true, list_elem_of_fmap. split.
  - intros (q & Hq & Heq). apply strict_eq_true in Heq. by exists q.
  - intros (q & -> & Hq). exists q. by rewrite strict_eq_refl.
Qed.

Lemma no_double_placement_alt json :
  no_double_placement json ↔ ∀ u, u ∈ occupants json → u ∈ queued_users json → False.
Proof.
  unfold no_double_placement. split.
  - intros H u Hp Hq. apply (H u). by rewrite onCharger_occupant, inQueue_queued.
  - intros H u [Hp Hq]. apply (H u); [by apply onCharger_occupant | by apply inQueue_queued].
Qed.

(** A document whose queue lost entries and whose spots gained only users
    that left the queue (or [null]) is still consistent. *)
Lemma consistent_transfer json json' :
  consistent json →
  queued_users json' `sublist_of` queued_users json →
  (∀ u, u ∈ occupants json' →
        u ∈ occupants json ∨ u = VNull ∨ u ∉ queued_users json') →
  consistent json'.
Proof.
  intros (Hnd & Hnn & Hdp) Hsub Hocc. split; [| split].
  - by eapply sublist_NoDup.
  - intros Hin. apply Hnn, (elem_of_sublist _ _ _ Hin Hsub).
  - apply no_double_placement_alt. intros u Hp Hq.
    destruct (Hocc u Hp) as [Hold | [-> | Hout]].
    + rewrite no_double_placement_alt in Hdp.
      apply (Hdp u Hold), (elem_of_sublist _ _ _ Hq Hsub).
    + apply Hnn, (elem_of_sublist _ _ _ Hq Hsub).
    + done.
Qed.

Lemma NoDup_delete_lookup {A : Type} (l : list A) k x :
  NoDup l → l !! k = Some x → x ∉ delete k l.
Proof.
  intros Hnd Hk Hin. rewrite (delete_Permutation l k x Hk) in Hnd.
  by apply NoDup_cons in Hnd as [Hx _].
Qed.

Lemma elem_of_insert_inv {A : Type} (l : list A) i x y :
  y ∈ <[i := x]> l → y = x ∨ y ∈ l.
Proof.
  revert i. induction l as [|h t IH]; intros [|i]; simpl; rewrite ?elem_of_cons; try tauto.
  intros [-> | Hin]; [right; by left |]. destruct (IH _ Hin); [by left | right; by right].
Qed.

(** What a backfill step does to the users of the queue. *)
Lemma backfill_queued us spot q spot' q' :
  backfill us spot q = (spot', q') →
  NoDup (q_userId <$> q) →
  (q_userId <$> q') `sublist_of` (q_userId <$> q)
  ∧ (s_userId spot' = s_userId spot ∨ s_userId spot' ∉ (q_userId <$> q')).
Proof.
  intros Hb Hnd.
  destruct (backfill_cases us spot q) as [(Heq & _) | (k & e & Hk & _ & _ & _ & Heq & _)];
    rewrite Heq in Hb; injection Hb as <- <-.
  - split; [done | by left].
  - rewrite list_fmap_delete. split; [apply sublist_delete |]. right. simpl.
    apply NoDup_delete_lookup; [done |]. by rewrite list_lookup_fmap, Hk.
Qed.

Lemma fillLoop_queued us sps : ∀ q sps' q',
  fillLoop us sps q = (sps', q') →
  NoDup (q_userId <$> q) →
  (q_userId <$> q') `sublist_of` (q_userId <$> q)
  ∧ ∀ u, u ∈ (s_userId <$> sps') →
         u ∈ (s_userId <$> sps) ∨ u ∉ (q_userId <$> q').
Proof.
  induction sps as [|spot rest IH]; intros q sps' q'; simpl.
  - intros [= <- <-] _. split; [done |]. intros u Hu. by left.
  - destruct (negb (truthy (s_userId spot))).
    + destruct (backfill us spot q) as [spot1 q1] eqn:Hb.
      destruct (fillLoop us rest q1) as [rest' q2] eqn:Hl.
      intros [= <- <-] Hnd.
      destruct (backfill_queued _ _ _ _ _ Hb Hnd) as [Hsub1 Hspot].
      assert (NoDup (q_userId <$> q1)) as Hnd1 by by eapply sublist_NoDup.
      destruct (IH _ _ _ Hl Hnd1) as [Hsub2 Hrest].
      split; [by etrans |].
      intros u. rewrite !fmap_cons, !elem_of_cons. intros [-> | Hu].
      * destruct Hspot as [-> | Hout]; [left; by left |].
        right. intros Hin. apply Hout, (elem_of_sublist _ _ _ Hin Hsub2).
      * destruct (Hrest u Hu); [left; by right | by right].
    + destruct (fillLoop us rest q) as [rest' q2] eqn:Hl.
      intros [= <- <-] Hnd. destruct (IH _ _ _ Hl Hnd) as [Hsub Hrest].
      split; [done |].
      intros u. rewrite !fmap_cons, !elem_of_cons. intros [-> | Hu]; [left; by left |].
      destruct (Hrest u Hu); [left; by right | by right].
Qed.

(** ** Exchanging two positions *)

Lemma insert_head_Permutation {A : Type} (l : list A) j a b :
  l !! j = Some b → b :: <[j := a]> l ≡ₚ a :: l.
Proof.
  revert j. induction l as [|h t IH]; intros [|j]; simpl; try done.
  - intros [= ->]. apply Permutation_swap.
  - intros Hj. rewrite (Permutation_swap h b), (IH _ Hj). apply Permutation_swap.
Qed.

(** Writing to two places of an array what the other held is a
    permutation of the array. *)
Lemma exchange_Permutation {A : Type} (l : list A) i j a b :
  l !! i = Some a → l !! j = Some b → <[j := a]> (<[i := b]> l) ≡ₚ l.
Proof.
  revert i j. induction l as [|h t IH]; intros [|i] [|j]; simpl; try done.
  - by intros [= ->] [= ->].
  - intros [= ->] Hj. by apply insert_head_Permutation.
  - intros Hi [= ->]. by apply insert_head_Permutation.
  - intros Hi Hj. by rewrite (IH _ _ Hi Hj).
Qed.

Lemma fmap_alter_set_position_user (l : list QueueEntry) i p :
  q_userId <$> alter (fun e => set_position e p) i l = q_userId <$> l.
Proof.
  rewrite (list_fmap_alter q_userId (fun e => set_position e p) id);
    [| by apply Forall_forall].
  by apply list_alter_id.
Qed.

(** ** The branches of the engine *)

(** [moveQueue] sorts the queue and then either stops, or exchanges the
    positions of the entry of the user, at [i], and of the entry at
    [j = i + delta]. *)
Lemma moveQueue_cases payload json :
  let q := JS.sort by_position (queue json) in
  let idx := JS.findIndex (fun e => strict_eq (q_userId e) (p_userId payload)) q in
  let to := idx + default 0 (p_delta payload) in
  (¬ (0 <= idx ∧ 0 <= to < Z.of_nat (length q))
   ∧ moveQueue payload json = set_queue json q)
  ∨ (∃ i j A B,
       idx = Z.of_nat i ∧ to = Z.of_nat j
       ∧ q !! i = Some A ∧ q !! j = Some B ∧ q_userId A = p_userId payload
       ∧ moveQueue payload json =
           set_queue json
             (alter (fun e => set_position e (q_position A)) j
                (alter (fun e => set_position e (q_position B)) i q))).
Proof.
  intros q idx to. unfold moveQueue. fold q. fold idx. fold to.
  destruct (Z.leb_spec 0 idx) as [Hidx | Hidx]; simpl; [| left; split; [lia | done]].
  destruct (Z.leb_spec 0 to) as [Hto | Hto]; simpl; [| left; split; [lia | done]].
  destruct (Z.ltb_spec to (Z.of_nat (length q))) as [Hlen | Hlen]; simpl;
    [| left; split; [lia | done]].
  right. unfold JS.at_.
  destruct (Z.ltb_spec idx 0); [lia |]. destruct (Z.ltb_spec to 0); [lia |].
  destruct (findIndex_found _ _ Hidx) as (A & HA & HpA & _). fold idx in HA.
  destruct (lookup_lt_is_Some_2 q (Z.to_nat to)) as [B HB]; [lia |].
  rewrite HA, HB.
  exists (Z.to_nat idx), (Z.to_nat to), A, B.
  repeat split; try done; try lia. by apply strict_eq_true.
Qed.

Lemma moveQueue_frame payload json :
  users (moveQueue payload json) = users json
  ∧ spots (moveQueue payload json) = spots json
  ∧ lastReset (moveQueue payload json) = lastReset json.
Proof.
  destruct (moveQueue_cases payload json)
    as [[_ ->] | (i & j & A & B & _ & _ & _ & _ & _ & ->)]; done.
Qed.

Lemma moveQueue_queued_users payload json :
  queued_users (moveQueue payload json) ≡ₚ queued_users json.
Proof.
  unfold queued_users.
  destruct (moveQueue_cases payload json)
    as [[_ ->] | (i & j & A & B & _ & _ & _ & _ & _ & ->)]; simpl.
  - by rewrite sort_perm.
  - by rewrite !fmap_alter_set_position_user, sort_perm.
Qed.

Lemma moveQueue_consistent payload json :
  consistent json → consistent (moveQueue payload json).
Proof.
  intros (Hnd & Hnn & Hdp). pose proof (moveQueue_queued_users payload json) as Hperm.
  destruct (moveQueue_frame payload json) as (_ & Hsp & _).
  split; [| split].
  - unfold one_entry_per_user. by rewrite Hperm.
  - unfold queue_names_users. by rewrite Hperm.
  - rewrite no_double_placement_alt in *. intros u. unfold occupants.
    rewrite Hsp, Hperm. apply Hdp.
Qed.

Lemma addUser_consistent now payload json :
  consistent json → consistent (after (addUser now payload json) json).
Proof.
  intros H. unfold addUser.
  destruct (or_else _ _); simpl; try done.
  by destruct (String.eqb _ _).
Qed.

Lemma addToQueue_consistent now payload json :
  consistent json → consistent (after (addToQueue now payload json) json).
Proof.
  intros (Hnd & Hnn & Hdp). unfold addToQueue.
  destruct (truthy (p_userId payload)) eqn:Ht; simpl; [| done].
  destruct (onCharger json (p_userId payload)) eqn:Hc; simpl; [done |].
  destruct (inQueue json (p_userId payload)) eqn:Hq; simpl; [done |].
  apply not_true_iff_false in Hc, Hq.
  rewrite onCharger_occupant in Hc. rewrite inQueue_queued in Hq.
  set (e := mkEntry _ _ _).
  assert (queued_users (set_queue json (JS.push (queue json) e))
          = queued_users json ++ [p_userId payload]) as Hqu.
  { unfold queued_users, JS.push. simpl. by rewrite fmap_app. }
  split; [| split].
  - unfold one_entry_per_user. rewrite Hqu. apply NoDup_app. split; [done |].
    split; [| apply NoDup_singleton].
    intros u Hu ->%list_elem_of_singleton. done.
  - unfold queue_names_users. rewrite Hqu, elem_of_app, list_elem_of_singleton.
    intros [Hin | Heq]; [done |]. by rewrite <- Heq in Ht.
  - rewrite no_double_placement_alt in *. intros u Hp.
    rewrite Hqu, elem_of_app, list_elem_of_singleton.
    intros [Hin | ->]; [by apply (Hdp u) | done].
Qed.

Lemma removeFromQueue_consistent payload json :
  consistent json → consistent (removeFromQueue payload json).
Proof.
  intros H. apply (consistent_transfer json); [done | |].
  - unfold queued_users, removeFromQueue. simpl. apply fmap_sublist, filter_sublist.
  - intros u Hu. by left.
Qed.

Lemma clearQueue_consistent json : consistent json → consistent (clearQueue json).
Proof.
  intros H. apply (consistent_transfer json); [done | |].
  - apply sublist_nil_l.
  - intros u Hu. by left.
Qed.

Lemma endSession_consistent payload json :
  consistent json → consistent (endSession payload json).
Proof.
  intros H. unfold endSession.
  destruct (JS.find_ref _ _) as [[i spot]|] eqn:Hf; [| done].
  destruct (backfill _ _ _) as [spot' q'] eqn:Hb.
  destruct (backfill_queued _ _ _ _ _ Hb (proj1 H)) as [Hsub Hspot].
  apply (consistent_transfer json); [done | done |].
  intros u. unfold occupants at 1. simpl. rewrite list_fmap_insert.
  intros [-> | Hin]%elem_of_insert_inv; [| by left].
  right. destruct Hspot as [-> | Hout]; [by left | by right].
Qed.

Lemma fillSpots_consistent json : consistent json → consistent (fillSpots json).
Proof.
  intros H. rewrite fillSpots_fillLoop.
  destruct (fillLoop _ _ _) as [sps q] eqn:Hl.
  destruct (fillLoop_queued _ _ _ _ _ Hl (proj1 H)) as [Hsub Hocc].
  apply (consistent_transfer json); [done | done |].
  intros u Hu. destruct (Hocc u Hu); [by left | right; by right].
Qed.

(** ** Deciding the invariants of a given document *)

Lemma no_double_placement_Forall json :
  no_double_placement json ↔ Forall (fun u => u ∉ queued_users json) (occupants json).
Proof.
  rewrite no_double_placement_alt, Forall_forall. split.
  - intros H u Hu Hq. by apply (H u).
  - intros H u Hu Hq. by apply (H u).
Qed.

#[global] Instance no_double_placement_dec json : Decision (no_double_placement json).
Proof.
  refine (cast_if (decide (Forall (fun u => u ∉ queued_users json) (occupants json))));
    by rewrite no_double_placement_Forall.
Defined.

#[global] Instance consistent_dec json : Decision (consistent json).
Proof. unfold consistent, one_entry_per_user, queue_names_users. apply _. Defined.

(** Settles a decidable property of given documents by evaluation. *)
Ltac by_evaluation := apply (bool_decide_unpack _); vm_compute; exact I.

(** ** The no-double-placement invariant *)

(** C1, as amended. From a document in which no user has two queue
    entries, no queue entry has a [null] userId and no user both occupies a
    spot and has a queue entry, every action of the engine other than
    [writeAll] leads to a document with the same three properties; in
    particular [onCharger] and [inQueue] are never both true of a userId
    afterwards. *)
Theorem engine_keeps_consistent now action payload json :
  action ≠ VStr "writeAll" →
  consistent json →
  consistent (after (applyAction now action payload json) json).
Proof.
  intros Hw H. unfold applyAction.
  repeat match goal with
         | |- context [strict_eq action ?a] =>
             destruct (strict_eq action a) eqn:?
         end; simpl.
  - by apply addUser_consistent.
  - by apply addToQueue_consistent.
  - by apply removeFromQueue_consistent.
  - by apply moveQueue_consistent.
  - by apply endSession_consistent.
  - by apply fillSpots_consistent.
  - by apply clearQueue_consistent.
  - exfalso. apply Hw. by apply strict_eq_true.
  - done.
Qed.

Lemma engine_keeps_consistent_witness :
  consistent
    (after (applyAction 5 (VStr "fillSpots") empty_payload Ex.queued) Ex.queued).
Proof.
  apply (engine_keeps_consistent 5 (VStr "fillSpots") empty_payload Ex.queued).
  - discriminate.
  - by_evaluation.
Defined.

(** C1 as stated fails: the absence of double placement alone is not kept.
    With two queue entries for one user, [endSession] places the user and
    leaves the second entry; with a queue entry whose userId is [null],
    [endSession] frees a spot, whose userId is then [null] as well. *)
Lemma no_double_placement_alone_not_kept :
  (no_double_placement Ex.duplicated
   ∧ ¬ no_double_placement
         (after (applyAction 5 (VStr "endSession") (Ex.for_spot "tesla-1") Ex.duplicated)
            Ex.duplicated))
  ∧ (no_double_placement Ex.null_queued
     ∧ ¬ no_double_placement
           (after (applyAction 5 (VStr "endSession") (Ex.for_spot "tesla-1") Ex.null_queued)
              Ex.null_queued)).
Proof.
  split; split.
  - by_evaluation.
  - intros H. apply (H (VNum 1)). by vm_compute.
  - by_evaluation.
  - intros H. apply (H VNull). by vm_compute.
Qed.

(** ** Ending a session *)

(** [endSession] scans the queue in the order of the array: the spot named
    by the call receives the user of the first matching entry of
    [json.queue], which leaves the queue, or [null]. *)
Lemma endSession_document_order payload json i spot :
  JS.find_ref (fun s => strict_eq (s_id s) (p_spotId payload)) (spots json)
    = Some (i, spot) →
  match JS.find (matches (users json) spot) (queue json) with
  | Some e =>
      spots (endSession payload json) !! i = Some (set_userId spot (q_userId e))
      ∧ ∃ k, queue json !! k = Some e
             ∧ queue (endSession payload json) = delete k (queue json)
  | None =>
      spots (endSession payload json) !! i = Some (set_userId spot VNull)
      ∧ queue (endSession payload json) = queue json
  end.
Proof.
  intros Hf. unfold endSession. rewrite Hf.
  apply find_ref_lookup in Hf as [Hi _].
  assert (i < length (spots json))%nat as Hlen by by eapply lookup_lt_Some.
  rewrite find_at_findIndex.
  destruct (backfill_cases (users json) (set_userId spot VNull) (queue json))
    as [(Heq & _ & Hnone) | (k & e & Hk & _ & _ & Hidx & Heq & _)]; rewrite Heq; simpl.
  - apply findIndex_none in Hnone.
    change (matches (users json) (set_userId spot VNull)) with (matches (users json) spot) in Hnone.
    unfold JS.at_. destruct (Z.ltb_spec (JS.findIndex (matches (users json) spot) (queue json)) 0);
      [| lia].
    split; [by apply list_lookup_insert_eq | done].
  - change (matches (users json) (set_userId spot VNull)) with (matches (users json) spot) in Hidx.
    unfold JS.at_. rewrite Hidx. destruct (Z.ltb_spec (Z.of_nat k) 0); [lia |].
    rewrite Nat2Z.id, Hk.
    split; [by apply list_lookup_insert_eq |]. by exists k.
Qed.

(** On a queue that is in priority order, [endSession] is the backfill of
    the specification. *)
Lemma endSession_as_specified_in_order payload json :
  in_priority_order (queue json) →
  endSession_as_specified payload json (endSession payload json).
Proof.
  intros Hs i spot Hf. unfold spec_pick. rewrite (sort_fixed _ Hs).
  pose proof (endSession_document_order payload json i spot Hf) as H.
  destruct (JS.find (matches (users json) spot) (queue json)) as [e|].
  - destruct H as (Hsp & k & Hk & Hq). eexists. split; [exact Hsp |].
    right. by exists e, k.
  - destruct H as (Hsp & Hq). eexists. split; [exact Hsp |]. by left.
Qed.

Example endSession_scenario :
  endSession (Ex.for_spot "tesla-1") Ex.busy
  = {| users := users Ex.busy;
       queue := [mkEntry (VNum 5) (VNum 2) 2];
       spots := [mkSpot (VStr "tesla-1") (VStr "Tesla") "Tesla #1" (VNum 1);
                 mkSpot (VStr "tesla-2") (VStr "Tesla") "Tesla #2" VNull];
       lastReset := VNull |}.
Proof. reflexivity. Qed.

(** C2, at the failing input. Alice and Bob register and queue in that
    order, then Bob is moved up: the engine leaves the document
    [Ex.reordered], where Bob holds position 1 and Alice position 2. The
    specification's backfill of spot tesla-1 picks Bob; [endSession] gives
    the spot to Alice and leaves Bob queued, so the call is not the one
    specified. *)
Theorem endSession_ignores_position :
  replay Ex.history defaultState = Ex.reordered
  ∧ spec_pick (users Ex.reordered)
      (mkSpot (VStr "tesla-1") (VStr "Tesla") "Tesla #1" VNull) (queue Ex.reordered)
    = Some (mkEntry (VNum 4) (VNum 2) 1)
  ∧ spots (endSession (Ex.for_spot "tesla-1") Ex.reordered) !! 0%nat
    = Some (mkSpot (VStr "tesla-1") (VStr "Tesla") "Tesla #1" (VNum 1))
  ∧ queue (endSession (Ex.for_spot "tesla-1") Ex.reordered)
    = [mkEntry (VNum 4) (VNum 2) 1]
  ∧ ¬ endSession_as_specified (Ex.for_spot "tesla-1") Ex.reordered
        (endSession (Ex.for_spot "tesla-1") Ex.reordered).
Proof.
  split; [by vm_compute |]. split; [by vm_compute |].
  split; [by vm_compute |]. split; [by vm_compute |].
  intros H.
  destruct (H 0%nat (mkSpot (VStr "tesla-1") (VStr "Tesla") "Tesla #1" VNull) eq_refl)
    as (spot' & Hsp & [[Hnull _] | (e & k & Hpick & Huser & _)]).
  - vm_compute in Hsp. injection Hsp as <-. discriminate Hnull.
  - vm_compute in Hsp, Hpick. injection Hsp as <-. injection Hpick as <-.
    discriminate Huser.
Qed.

(** ** Moving in the queue *)

Lemma set_queue_same json : set_queue json (queue json) = json.
Proof. by destruct json. Qed.

Lemma alter_lookup_insert {A : Type} (f : A → A) (l : list A) i x :
  l !! i = Some x → alter f i l = <[i := f x]> l.
Proof.
  revert i. induction l as [|h t IH]; intros [|i]; simpl; try done.
  - by intros [= ->].
  - intros Hi. f_equal. by apply IH.
Qed.

(** The exchange of [moveQueue] written with the two entries it assigns. *)
Lemma exchange_insert (q : list QueueEntry) i j A B :
  q !! i = Some A → q !! j = Some B →
  alter (fun e => set_position e (q_position A)) j
    (alter (fun e => set_position e (q_position B)) i q)
  = <[j := set_position B (q_position A)]> (<[i := set_position A (q_position B)]> q).
Proof.
  intros Hi Hj. rewrite (alter_lookup_insert _ q i A Hi).
  destruct (decide (i = j)) as [<- | Hne].
  - assert (A = B) as <- by congruence.
    rewrite (alter_lookup_insert (fun e => set_position e (q_position A)) _ i
               (set_position A (q_position A))); [done |].
    apply list_lookup_insert_eq. by eapply lookup_lt_Some.
  - apply (alter_lookup_insert (fun e => set_position e (q_position A))).
    by rewrite list_lookup_insert_ne.
Qed.

Lemma absent_user_not_found payload json :
  inQueue json (p_userId payload) = false →
  JS.findIndex (fun e => strict_eq (q_userId e) (p_userId payload))
    (JS.sort by_position (queue json)) < 0.
Proof.
  intros Hq. apply findIndex_none. intros e He.
  rewrite (sort_perm by_position (queue json)) in He.
  unfold inQueue in Hq. rewrite some_false in Hq. by apply Hq.
Qed.

(** C4, as amended. When the user has no queue entry, or the target index
    [idx + delta] is outside [0, len), [moveQueue] leaves the users, the
    spots and [lastReset] as they are and leaves the queue sorted by
    ascending position: the same entries, in the order of the stable sort,
    which is the order they had when the queue was already in priority
    order. *)
Theorem moveQueue_noop_sorts payload json :
  let q := JS.sort by_position (queue json) in
  let idx := JS.findIndex (fun e => strict_eq (q_userId e) (p_userId payload)) q in
  let to := idx + default 0 (p_delta payload) in
  inQueue json (p_userId payload) = false ∨ ¬ (0 <= to < Z.of_nat (length (queue json))) →
  moveQueue payload json = set_queue json q
  ∧ q ≡ₚ queue json
  ∧ in_priority_order q
  ∧ (in_priority_order (queue json) → moveQueue payload json = json).
Proof.
  intros q idx to Hno.
  assert (moveQueue payload json = set_queue json q) as Heq.
  { destruct (moveQueue_cases payload json)
      as [[_ Hm] | (i & j & A & B & Hi & Hj & HA & HB & _ & _)]; [done |].
    fold q in Hi, Hj, HA, HB. fold idx in Hi. fold idx to in Hj.
    exfalso. destruct Hno as [Habs | Hout].
    - pose proof (absent_user_not_found payload json Habs) as Hlt.
      fold q idx in Hlt. lia.
    - apply Hout. apply lookup_lt_Some in HB.
      unfold q in HB. rewrite sort_length in HB. lia. }
  split; [done |]. split; [apply sort_perm |]. split; [apply sort_in_priority_order |].
  intros Hs. rewrite Heq. unfold q. rewrite (sort_fixed _ Hs). apply set_queue_same.
Qed.

Lemma moveQueue_noop_sorts_witness :
  moveQueue (Ex.for_user (VNum 9)) Ex.reordered
  = set_queue Ex.reordered (JS.sort by_position (queue Ex.reordered)).
Proof.
  apply (moveQueue_noop_sorts (Ex.for_user (VNum 9)) Ex.reordered).
  left. reflexivity.
Defined.

(** C4 as stated fails: a call of [moveQueue] for a user that has no queue
    entry changes the order of the queue array when the array was not in
    priority order. *)
Lemma moveQueue_absent_user_reorders :
  inQueue Ex.reordered (VNum 9) = false
  ∧ queue Ex.reordered = [mkEntry (VNum 3) (VNum 1) 2; mkEntry (VNum 4) (VNum 2) 1]
  ∧ queue (moveQueue (Ex.for_user (VNum 9)) Ex.reordered)
    = [mkEntry (VNum 4) (VNum 2) 1; mkEntry (VNum 3) (VNum 1) 2]
  ∧ moveQueue (Ex.for_user (VNum 9)) Ex.reordered ≠ Ex.reordered.
Proof. repeat split; by vm_compute. Qed.

(** C7. [moveQueue] keeps the multiset of positions, the entries'
    identities and users (hence the set of queued users) and the number of
    entries; it does not touch the rest of the document; and the queue it
    leaves is the sorted queue, either as it is or with the positions of
    two of its entries exchanged. *)
Theorem moveQueue_exchanges_positions payload json :
  let q := queue json in
  let q' := queue (moveQueue payload json) in
  let sorted := JS.sort by_position q in
  (q_position <$> q') ≡ₚ (q_position <$> q)
  ∧ ((fun e => (q_id e, q_userId e)) <$> q') ≡ₚ ((fun e => (q_id e, q_userId e)) <$> q)
  ∧ (∀ u, inQueue (moveQueue payload json) u = inQueue json u)
  ∧ length q' = length q
  ∧ users (moveQueue payload json) = users json
  ∧ spots (moveQueue payload json) = spots json
  ∧ lastReset (moveQueue payload json) = lastReset json
  ∧ sorted ≡ₚ q
  ∧ (q' = sorted
     ∨ ∃ i j A B,
         sorted !! i = Some A ∧ sorted !! j = Some B
         ∧ q' = <[j := set_position B (q_position A)]>
                  (<[i := set_position A (q_position B)]> sorted)).
Proof.
  intros q q' sorted.
  pose proof (sort_perm by_position q) as Hperm. fold sorted in Hperm.
  destruct (moveQueue_frame payload json) as (Hu & Hs & Hr).
  assert (q' = sorted
          ∨ ∃ i j A B, sorted !! i = Some A ∧ sorted !! j = Some B
              ∧ q' = <[j := set_position B (q_position A)]>
                       (<[i := set_position A (q_position B)]> sorted)) as Hshape.
  { unfold q'. destruct (moveQueue_cases payload json)
      as [[_ ->] | (i & j & A & B & _ & _ & HA & HB & _ & ->)]; [by left |].
    right. exists i, j, A, B. fold q sorted in HA, HB |- *.
    split; [done |]. split; [done |]. simpl. by apply exchange_insert. }
  assert ((q_position <$> q') ≡ₚ (q_position <$> q)) as Hpos.
  { destruct Hshape as [-> | (i & j & A & B & HA & HB & ->)]; [by rewrite Hperm |].
    rewrite !list_fmap_insert. simpl. rewrite <- Hperm.
    apply exchange_Permutation; by rewrite list_lookup_fmap, ?HA, ?HB. }
  assert (((fun e => (q_id e, q_userId e)) <$> q')
          ≡ₚ ((fun e => (q_id e, q_userId e)) <$> q)) as Hids.
  { destruct Hshape as [-> | (i & j & A & B & HA & HB & ->)]; [by rewrite Hperm |].
    rewrite !list_fmap_insert. simpl. rewrite <- Hperm.
    rewrite (list_insert_id _ i); [| by rewrite list_lookup_fmap, HA].
    rewrite (list_insert_id _ j); [done | by rewrite list_lookup_fmap, HB]. }
  split; [done |]. split; [done |]. split.
  { intros u. pose proof (moveQueue_queued_users payload json) as Hqu.
    apply eq_true_iff_eq. rewrite !inQueue_queued. by rewrite Hqu. }
  split.
  { apply Permutation_length in Hpos. by rewrite !length_fmap in Hpos. }
  done.
Qed.

(** ** Filling the free spots *)

(** The loop of [fillSpots], spot by spot: the entries it takes are the
    entries that leave the queue. *)
Lemma fillLoop_picks_spec us sps : ∀ q,
  Forall3 (filled us) sps (fillLoop_picks us sps q) (fst (fillLoop us sps q))
  ∧ q ≡ₚ picked (fillLoop_picks us sps q) ++ snd (fillLoop us sps q)
  ∧ snd (fillLoop us sps q) `sublist_of` q.
Proof.
  induction sps as [|spot rest IH]; intros q; simpl.
  - split; [constructor | done].
  - destruct (truthy (s_userId spot)) eqn:Ht; simpl.
    + destruct (IH q) as (HF & Hperm & Hsub).
      destruct (fillLoop us rest q) as [rest' q2]. simpl in *.
      split; [by constructor | done].
    + destruct (backfill_cases us spot q)
        as [(Heq & Hpick & _) | (k & e & Hk & Hm & _ & _ & Heq & Hpick)];
        rewrite Heq, Hpick; simpl.
      * destruct (IH q) as (HF & Hperm & Hsub).
        destruct (fillLoop us rest q) as [rest' q2]. simpl in *.
        split; [by constructor | done].
      * destruct (IH (delete k q)) as (HF & Hperm & Hsub).
        destruct (fillLoop us rest (delete k q)) as [rest' q2]. simpl in *.
        split; [by constructor |]. split.
        -- unfold picked in *. simpl. rewrite <- Hperm. by apply delete_Permutation.
        -- etrans; [done | apply sublist_delete].
Qed.

Lemma picked_lookup (picks : list (option QueueEntry)) j e :
  picks !! j = Some (Some e) → e ∈ picked picks.
Proof.
  intros Hj. unfold picked. apply list_elem_of_omap. exists (Some e).
  split; [by eapply list_elem_of_lookup_2 | done].
Qed.

(** When the users of the entries taken are pairwise different, two
    different spots received different users. *)
Lemma picked_distinct (picks : list (option QueueEntry)) :
  NoDup (q_userId <$> picked picks) →
  ∀ i j e e', i ≠ j → picks !! i = Some (Some e) → picks !! j = Some (Some e') →
              q_userId e ≠ q_userId e'.
Proof.
  induction picks as [|[a|] picks IH]; intros Hnd [|i] [|j] e e' Hij Hi Hj;
    simpl in *; try done.
  - injection Hi as ->. apply NoDup_cons in Hnd as [Hout _].
    intros Heq. apply Hout. rewrite Heq. by eapply list_elem_of_fmap_2, picked_lookup.
  - injection Hj as ->. apply NoDup_cons in Hnd as [Hout _].
    intros Heq. apply Hout. rewrite <- Heq. by eapply list_elem_of_fmap_2, picked_lookup.
  - apply NoDup_cons in Hnd as [_ Hnd]. apply (IH Hnd i j); [lia | done | done].
  - apply (IH Hnd i j); [lia | done | done].
Qed.

(** C5, as amended. When the queue holds at most one entry per user, a
    call of [fillSpots] takes each entry for at most one spot and no two
    spots receive the same user: spot by spot, a spot is left as it was or
    was empty and receives the user of one matching entry; the entries taken
    are exactly those that leave the queue; their users are pairwise
    different and none of them is queued afterwards. *)
Theorem fillSpots_assigns_once json :
  one_entry_per_user json →
  let picks := fillSpots_picks json in
  Forall3 (filled (users json)) (spots json) picks (spots (fillSpots json))
  ∧ queue json ≡ₚ picked picks ++ queue (fillSpots json)
  ∧ queue (fillSpots json) `sublist_of` queue json
  ∧ NoDup (q_userId <$> picked picks)
  ∧ (∀ i j e e', i ≠ j → picks !! i = Some (Some e) → picks !! j = Some (Some e') →
                 q_userId e ≠ q_userId e')
  ∧ ∀ e, e ∈ picked picks → inQueue (fillSpots json) (q_userId e) = false.
Proof.
  intros Hnd picks.
  destruct (fillLoop_picks_spec (users json) (spots json) (queue json)) as (HF & Hperm & Hsub).
  fold (fillSpots_picks json) in HF, Hperm. fold picks in HF, Hperm.
  assert (spots (fillSpots json) = fst (fillLoop (users json) (spots json) (queue json))
          ∧ queue (fillSpots json) = snd (fillLoop (users json) (spots json) (queue json)))
    as [Hs Hq].
  { by rewrite fillSpots_fillLoop. }
  rewrite Hs, Hq. split; [done |]. split; [done |]. split; [done |].
  unfold one_entry_per_user, queued_users in Hnd.
  rewrite Hperm, fmap_app in Hnd. apply NoDup_app in Hnd as (Hp & Hdisj & _).
  split; [done |]. split; [by apply picked_distinct |]. intros e He.
  apply not_true_iff_false. rewrite inQueue_queued. unfold queued_users. rewrite Hq.
  apply Hdisj. by apply list_elem_of_fmap_2.
Qed.

Lemma fillSpots_assigns_once_witness :
  NoDup (q_userId <$> picked (fillSpots_picks Ex.queued))
  ∧ picked (fillSpots_picks Ex.queued) = queue Ex.queued.
Proof.
  split; [| reflexivity].
  apply (fillSpots_assigns_once Ex.queued). by_evaluation.
Defined.

(** C5 as stated fails: with two queue entries for Alice, one call of
    [fillSpots] takes both entries and writes Alice to the first two
    spots. *)
Lemma fillSpots_assigns_duplicated_user_twice :
  fillSpots_picks Ex.duplicated
  = [Some (mkEntry (VNum 3) (VNum 1) 1); Some (mkEntry (VNum 4) (VNum 1) 2); None; None]
  ∧ s_userId <$> spots Ex.duplicated = [VNull; VNull; VNull; VNull]
  ∧ s_userId <$> spots (fillSpots Ex.duplicated) = [VNum 1; VNum 1; VNull; VNull]
  ∧ queue (fillSpots Ex.duplicated) = []
  ∧ ¬ NoDup (q_userId <$> picked (fillSpots_picks Ex.duplicated)).
Proof.
  repeat split; try by vm_compute.
  intros H. vm_compute in H. apply NoDup_cons in H as [H _]. apply H. left.
Qed.

(** ** Entries of unknown users *)

Lemma filter_delete_rejected {A : Type} (p : A → bool) (l : list A) k x :
  l !! k = Some x → p x = false → JS.filter p (delete k l) = JS.filter p l.
Proof.
  revert k. induction l as [|h t IH]; intros [|k]; simpl; try done.
  - intros [= ->] Hp. by rewrite Hp.
  - intros Hk Hp. by rewrite (IH _ Hk Hp).
Qed.

Lemma backfill_keeps_dangling us spot q :
  JS.filter (dangling us) (snd (backfill us spot q)) = JS.filter (dangling us) q.
Proof.
  destruct (backfill_cases us spot q)
    as [(Heq & _) | (k & e & Hk & Hm & _ & _ & Heq & _)]; rewrite Heq; simpl; [done |].
  apply (filter_delete_rejected _ _ _ e); [done |]. by eapply matches_not_dangling.
Qed.

Lemma backfill_spot us spot q :
  fst (backfill us spot q) = spot
  ∨ ∃ u, u ∈ us ∧ fst (backfill us spot q) = set_userId spot (u_id u).
Proof.
  destruct (backfill_cases us spot q)
    as [(Heq & _) | (k & e & Hk & Hm & _ & _ & Heq & _)]; rewrite Heq; simpl; [by left |].
  right. destruct (matches_user _ _ _ Hm) as (u & Hu & Hid & _).
  exists u. by rewrite Hid.
Qed.

Lemma fillLoop_keeps_dangling us sps : ∀ q,
  JS.filter (dangling us) (snd (fillLoop us sps q)) = JS.filter (dangling us) q.
Proof.
  induction sps as [|spot rest IH]; intros q; simpl; [done |].
  destruct (negb (truthy (s_userId spot))).
  - pose proof (backfill_keeps_dangling us spot q) as Hb.
    destruct (backfill us spot q) as [spot' q1]. simpl in Hb.
    specialize (IH q1). destruct (fillLoop us rest q1) as [rest' q2]. simpl in *.
    by rewrite IH.
  - specialize (IH q). by destruct (fillLoop us rest q) as [rest' q2].
Qed.

Lemma fillLoop_given us sps : ∀ q,
  Forall2 (fun sp sp' => sp' = sp ∨ given us sp sp') sps (fst (fillLoop us sps q)).
Proof.
  induction sps as [|spot rest IH]; intros q; simpl; [constructor |].
  destruct (negb (truthy (s_userId spot))).
  - pose proof (backfill_spot us spot q) as Hb.
    destruct (backfill us spot q) as [spot' q1]. simpl in Hb.
    specialize (IH q1). destruct (fillLoop us rest q1) as [rest' q2]. simpl in *.
    constructor; [| done]. destruct Hb as [-> | Hu]; [by left | by right].
  - specialize (IH q). destruct (fillLoop us rest q) as [rest' q2]. simpl in *.
    constructor; [by left | done].
Qed.

Lemma Forall2_insert_refl {A : Type} (R : A → A → Prop) (l : list A) i x y :
  (∀ z, R z z) → l !! i = Some x → R x y → Forall2 R l (<[i := y]> l).
Proof.
  intros Hrefl. revert i. induction l as [|h t IH]; intros [|i]; simpl; try done.
  - intros [= ->] Hxy. constructor; [done |]. by apply Forall_Forall2_diag, Forall_forall.
  - intros Hi Hxy. constructor; [done |]. by apply IH.
Qed.

(** C10. [endSession] and [fillSpots] pass over the queue entries whose
    userId is the id of no user: the entries of that kind are the same,
    in the same order, before and after the call, and every spot is as
    before, freed (by [endSession]), or holds the id of a user of the
    document. The users are not changed by either call. *)
Theorem backfill_skips_dangling payload json :
  (JS.filter (dangling (users json)) (queue (endSession payload json))
   = JS.filter (dangling (users json)) (queue json)
   ∧ Forall2 (fun sp sp' =>
                sp' = sp ∨ sp' = set_userId sp VNull ∨ given (users json) sp sp')
       (spots json) (spots (endSession payload json))
   ∧ users (endSession payload json) = users json)
  ∧ (JS.filter (dangling (users json)) (queue (fillSpots json))
     = JS.filter (dangling (users json)) (queue json)
     ∧ Forall2 (fun sp sp' => sp' = sp ∨ given (users json) sp sp')
         (spots json) (spots (fillSpots json))
     ∧ users (fillSpots json) = users json).
Proof.
  split.
  - unfold endSession.
    destruct (JS.find_ref _ _) as [[i spot]|] eqn:Hf.
    + apply find_ref_lookup in Hf as [Hi _].
      pose proof (backfill_keeps_dangling (users json) (set_userId spot VNull) (queue json)) as Hd.
      pose proof (backfill_spot (users json) (set_userId spot VNull) (queue json)) as Hs.
      destruct (backfill _ _ _) as [spot' q']. simpl in *.
      split; [done |]. split; [| done].
      apply (Forall2_insert_refl _ _ _ spot); [by left | done |].
      destruct Hs as [-> | (u & Hu & ->)]; [right; by left |].
      right. right. by exists u.
    + split; [done |]. split; [| done]. apply Forall_Forall2_diag, Forall_forall. by left.
  - rewrite fillSpots_fillLoop. simpl.
    pose proof (fillLoop_keeps_dangling (users json) (spots json) (queue json)) as Hd.
    pose proof (fillLoop_given (users json) (spots json) (queue json)) as Hs.
    done.
Qed.

Example fillSpots_passes_over_stranger :
  queue (fillSpots Ex.with_stranger) = [mkEntry (VNum 5) (VNum 9) 1]
  ∧ s_userId <$> spots (fillSpots Ex.with_stranger) = [VNum 2; VNull; VNull; VNull].
Proof. split; reflexivity. Qed.

(** ** Queueing a user that is already placed or queued *)

(** C6, as amended. For a userId that is on a spot or in the queue,
    [addToQueue] changes nothing, however often it is applied: the document
    after one call and after a second call is the document before. The call
    succeeds as a no-op when the userId is truthy; a userId that is falsy
    (0, the empty string, [null]) is rejected with 400 before the engine
    looks at the spots and the queue. *)
Theorem addToQueue_again now now' payload json :
  onCharger json (p_userId payload) = true ∨ inQueue json (p_userId payload) = true →
  let once := after (addToQueue now payload json) json in
  let twice := after (addToQueue now' payload once) once in
  once = json ∧ twice = once ∧ queue twice = queue once
  ∧ (truthy (p_userId payload) = true → addToQueue now payload json = Next json)
  ∧ (truthy (p_userId payload) = false →
     addToQueue now payload json = Bad 400 "userId required").
Proof.
  intros Hin.
  assert (∀ t, after (addToQueue t payload json) json = json
               ∧ (truthy (p_userId payload) = true → addToQueue t payload json = Next json)
               ∧ (truthy (p_userId payload) = false →
                  addToQueue t payload json = Bad 400 "userId required")) as H.
  { intros t. unfold addToQueue.
    destruct (truthy (p_userId payload)); simpl; [| done].
    destruct Hin as [-> | ->]; simpl; [done |].
    by destruct (onCharger json (p_userId payload)). }
  intros once twice. unfold twice, once.
  destruct (H now) as (-> & Hok & Hbad). destruct (H now') as (-> & _ & _). done.
Qed.

Lemma addToQueue_again_witness :
  addToQueue 7 (Ex.for_user (VNum 1)) Ex.charging = Next Ex.charging
  ∧ addToQueue 7 (Ex.for_user (VNum 2)) Ex.charging = Next Ex.charging.
Proof.
  split.
  - apply (addToQueue_again 7 8 (Ex.for_user (VNum 1)) Ex.charging); [left |]; reflexivity.
  - apply (addToQueue_again 7 8 (Ex.for_user (VNum 2)) Ex.charging); [right |]; reflexivity.
Defined.

(** C6 as stated fails: for the user with id 0, who is on a spot,
    [addToQueue] does not succeed as a no-op but is rejected. *)
Lemma addToQueue_rejects_placed_user_zero :
  onCharger Ex.zero_placed (VNum 0) = true
  ∧ addToQueue 7 (Ex.for_user (VNum 0)) Ex.zero_placed = Bad 400 "userId required"
  ∧ applyAction 7 (VStr "addToQueue") (Ex.for_user (VNum 0)) Ex.zero_placed
    ≠ Next Ex.zero_placed.
Proof. repeat split; by vm_compute. Qed.

(** ** The requests of the handler *)

(** The handler answers at once, or makes one read and then either answers
    or makes one write, of the document of the engine, and answers. *)
Lemma handler_shape now env event :
  (∃ resp, handler now env event = Ret resp)
  ∨ ∃ token k,
      GH_TOKEN env = Some token
      ∧ handler now env event = Get (env_url env) token k
      ∧ ∀ r,
          (∃ resp, k r = Ret resp)
          ∨ ∃ action payload json' k',
              request event = Some (action, payload)
              ∧ applyAction now action payload (read_document r) = Next json'
              ∧ k r = Put (env_url env) token (put_body json' r) k'
              ∧ ∀ status,
                  k' status = Ret (if ok status then ok_response else write_failed status).
Proof.
  unfold handler, env_url, put_body, write_failed.
  destruct env as [[token|] [owner|] [repo|] path key]; simpl; try (left; by eexists).
  destruct (String.eqb token "" || String.eqb owner "" || String.eqb repo "");
    [left; by eexists |].
  destruct (_ && _); [left; by eexists |].
  right. eexists token, _. split; [done |]. split; [reflexivity |].
  intros r. unfold read_document, read_token. simpl.
  assert (∀ json sha,
            (∃ resp, try_catch (post now owner repo (str_or path "state.json") token event json sha)
                       (fun msg => Ret (bad 500 ("Error: " +:+ msg))) = Ret resp)
            ∨ ∃ action payload json' k',
                request event = Some (action, payload)
                ∧ applyAction now action payload json = Next json'
                ∧ try_catch (post now owner repo (str_or path "state.json") token event json sha)
                    (fun msg => Ret (bad 500 ("Error: " +:+ msg)))
                  = Put (contents_url owner repo (str_or path "state.json")) token
                      {| put_message := "EV state update"; put_content := json';
                         put_sha := if truthy_str sha then sha else None |} k'
                ∧ ∀ status,
                    k' status
                    = Ret (if ok status then ok_response
                           else bad 500 ("Error: Repo write failed: " +:+ pretty status)))
    as Hpost.
  { intros json sha. unfold post, request.
    destruct (body event) as [| msg | action payload]; simpl; try (left; by eexists).
    destruct (applyAction now action (default empty_payload payload) json) eqn:Ha;
      simpl; try (left; by eexists).
    right. do 4 eexists. split; [reflexivity |]. split; [exact Ha |]. split; [reflexivity |].
    intros status. simpl. by destruct (ok status). }
  destruct (get_status r =? 404) eqn:H404; simpl.
  - destruct (String.eqb _ "GET"); simpl; [left; by eexists |].
    destruct (String.eqb _ "POST"); simpl; [| left; by eexists].
    apply Hpost.
  - destruct (ok (get_status r)); simpl; [| left; by eexists].
    destruct (get_contents r) as [[json sha]|]; simpl; [| left; by eexists].
    destruct (String.eqb _ "GET"); simpl; [left; by eexists |].
    destruct (String.eqb _ "POST"); simpl; [| left; by eexists].
    apply Hpost.
Qed.

(** ** Reading the document *)

(** C9. With the configuration present, a GET request makes one read of
    the configured location; when the store answers that there is no object
    there (404), the response is 200 with the default document, and the
    store, whatever it is, is left as it was. The default document has
    four spots, two of type Tesla and two of type ChargePoint, all free, no
    users, an empty queue and [lastReset] null. *)
Theorem read_of_absent_document now env event :
  configured env = true →
  JS.toUpperCase (str_or (httpMethod event) "GET") = "GET" →
  (∃ k, handler now env event = Get (env_url env) (default "" (GH_TOKEN env)) k
        ∧ ∀ r, get_status r = 404 → k r = Ret (state_response defaultState))
  ∧ (∀ (S : Type) (get : S → string → GetReply) (put : S → string → PutBody → S * Z) st,
       get_status (get st (env_url env)) = 404 →
       run get put st (handler now env event) = (st, inl (state_response defaultState)))
  ∧ users defaultState = [] ∧ queue defaultState = [] ∧ lastReset defaultState = VNull
  ∧ length (spots defaultState) = 4%nat
  ∧ s_type <$> spots defaultState
    = [VStr "Tesla"; VStr "Tesla"; VStr "ChargePoint"; VStr "ChargePoint"]
  ∧ Forall (fun s => s_userId s = VNull) (spots defaultState).
Proof.
  intros Hc Hm.
  assert (∃ k, handler now env event = Get (env_url env) (default "" (GH_TOKEN env)) k
               ∧ ∀ r, get_status r = 404 → k r = Ret (state_response defaultState))
    as (k & Hk & H404).
  { unfold handler, env_url, configured in *. rewrite Hm.
    destruct env as [[token|] [owner|] [repo|] path key]; simpl in *;
      rewrite ?andb_false_r in Hc; try done.
    destruct (String.eqb token ""); [done |].
    destruct (String.eqb owner ""); [done |].
    destruct (String.eqb repo ""); [done |]. simpl.
    eexists. split; [reflexivity |].
    intros r Hr. simpl. rewrite Hr. reflexivity. }
  split; [by exists k |]. split.
  - intros S get put st Hst. rewrite Hk. simpl. by rewrite (H404 _ Hst).
  - repeat split; try done. by repeat constructor.
Qed.

Lemma read_of_absent_document_witness :
  run (fun (_ : unit) _ => mkGetReply 404 None) (fun st _ _ => (st, 200)) tt
    (handler 7 Ex.env Ex.GET)
  = (tt, inl (state_response defaultState)).
Proof.
  apply (read_of_absent_document 7 Ex.env Ex.GET); reflexivity.
Defined.

(** ** Validation errors and writes *)

Lemma invalid_input_bad now action payload json :
  invalid_input action payload → ∃ msg, applyAction now action payload json = Bad 400 msg.
Proof.
  unfold applyAction.
  intros [(-> & s & Hname & Htrim) | [(-> & Hfalsy) | Hunknown]].
  - exists "Name required". simpl. unfold addUser. by rewrite Hname, Htrim.
  - exists "userId required". simpl. unfold addToQueue. by rewrite Hfalsy.
  - exists "Unknown action".
    rewrite !not_elem_of_cons in Hunknown.
    destruct Hunknown as (H1 & H2 & H3 & H4 & H5 & H6 & H7 & H8 & _).
    by rewrite !(proj2 (strict_eq_false action _)).
Qed.

(** The three validation errors are the only ways the engine returns
    [bad]. *)
Lemma bad_invalid_input now action payload json status msg :
  applyAction now action payload json = Bad status msg →
  invalid_input action payload ∧ status = 400.
Proof.
  unfold applyAction, invalid_input.
  destruct (strict_eq action (VStr "addUser")) eqn:H1.
  { apply strict_eq_true in H1 as ->. unfold addUser.
    destruct (or_else (p_name payload) (VStr "")) as [| | |n|s] eqn:Hn; try done.
    destruct (String.eqb (JS.trim s) "") eqn:Ht; [| done].
    intros [= <- _]. split; [| done]. left. split; [done |].
    exists s. split; [done |]. by apply String.eqb_eq. }
  destruct (strict_eq action (VStr "addToQueue")) eqn:H2.
  { apply strict_eq_true in H2 as ->. unfold addToQueue.
    destruct (truthy (p_userId payload)) eqn:Ht; simpl.
    - by destruct (negb _ && negb _).
    - intros [= <- _]. split; [| done]. right. left. done. }
  destruct (strict_eq action (VStr "removeFromQueue")) eqn:H3; [done |].
  destruct (strict_eq action (VStr "moveQueue")) eqn:H4; [done |].
  destruct (strict_eq action (VStr "endSession")) eqn:H5; [done |].
  destruct (strict_eq action (VStr "fillSpots")) eqn:H6; [done |].
  destruct (strict_eq action (VStr "clearQueue")) eqn:H7; [done |].
  destruct (strict_eq action (VStr "writeAll")) eqn:H8; [done |].
  intros [= <- _]. split; [| done]. right. right.
  apply strict_eq_false in H1, H2, H3, H4, H5, H6, H7, H8.
  rewrite !not_elem_of_cons. repeat split; try done. apply not_elem_of_nil.
Qed.

(** A program that sends no PUT request leaves any store as it was. *)
Lemma no_writes_run {S A : Type} (p : Fetch A) :
  (∀ gets puts, writes p gets puts = []) →
  ∀ (get : S → string → GetReply) (put : S → string → PutBody → S * Z) st,
    (run get put st p).1 = st.
Proof.
  induction p as [a | msg | url token k IH | url token b k IH]; intros Hw get put st;
    simpl; try done.
  - apply IH. intros gets puts. apply (Hw (get st url :: gets) puts).
  - specialize (Hw [] []). done.
Qed.

(** The PUT requests of the handler: none, or one whose content is the
    document the engine produced from the document that was read and whose
    token is the one that was read. *)
Lemma handler_writes now env event gets puts :
  writes (handler now env event) gets puts = []
  ∨ ∃ action payload json',
      let r := hd (mkGetReply 404 None) gets in
      request event = Some (action, payload)
      ∧ applyAction now action payload (read_document r) = Next json'
      ∧ writes (handler now env event) gets puts = [put_body json' r].
Proof.
  destruct (handler_shape now env event) as [[resp ->] | (token & k & _ & -> & Hk)];
    [by left |].
  assert (writes (Get (env_url env) token k) gets puts
          = writes (k (hd (mkGetReply 404 None) gets)) (tl gets) puts) as ->.
  { by destruct gets. }
  destruct (Hk (hd (mkGetReply 404 None) gets))
    as [[resp ->] | (action & payload & json' & k' & Hreq & Ha & -> & Hk')]; [by left |].
  right. exists action, payload, json'. split; [done |]. split; [done |].
  simpl. destruct puts as [|s puts]; by rewrite Hk'.
Qed.

(** A run of the handler against a store leaves the store as it was, or
    as the store made it on the one PUT request, whose content is the
    document the engine produced from the document that was read; the
    response is then the success response when the store accepted the
    write and the failure response when it did not. *)
Lemma handler_run {S : Type} now env event
    (get : S → string → GetReply) (put : S → string → PutBody → S * Z) st :
  let res := run get put st (handler now env event) in
  res.1 = st
  ∨ ∃ action payload json',
      let r := get st (env_url env) in
      let written := put st (env_url env) (put_body json' r) in
      request event = Some (action, payload)
      ∧ applyAction now action payload (read_document r) = Next json'
      ∧ res.1 = written.1
      ∧ res.2 = inl (if ok written.2 then ok_response else write_failed written.2).
Proof.
  destruct (handler_shape now env event) as [[resp ->] | (token & k & _ & -> & Hk)];
    [by left |].
  simpl.
  destruct (Hk (get st (env_url env)))
    as [[resp ->] | (action & payload & json' & k' & Hreq & Ha & -> & Hk')]; [by left |].
  right. exists action, payload, json'. simpl.
  destruct (put st (env_url env) (put_body json' (get st (env_url env)))) as [st' status].
  rewrite Hk'. simpl. done.
Qed.

(** C8. A request whose action fails validation (an [addUser] whose name
    is empty after trimming, an [addToQueue] without a truthy userId, an
    unknown action) is answered by the engine with status 400, makes no
    PUT request whatever the store replies, and leaves the store, whatever
    it is, as it was; and these are the only cases in which the engine
    answers with [bad]. For any request, the handler sends no PUT request
    or exactly one, whose content is the document the engine returned for
    the document that was read; a run against a store ends with the store
    untouched, or as that one request left it, with the success response
    when the store accepted it. *)
Theorem writes_whole_or_nothing now env event action payload :
  request event = Some (action, payload) →
  (invalid_input action payload →
   (∀ json, ∃ msg, applyAction now action payload json = Bad 400 msg)
   ∧ (∀ gets puts, writes (handler now env event) gets puts = [])
   ∧ (∀ (S : Type) (get : S → string → GetReply) (put : S → string → PutBody → S * Z) st,
        (run get put st (handler now env event)).1 = st))
  ∧ (∀ json status msg,
       applyAction now action payload json = Bad status msg →
       invalid_input action payload ∧ status = 400)
  ∧ (∀ gets puts,
       writes (handler now env event) gets puts = []
       ∨ ∃ json',
           let r := hd (mkGetReply 404 None) gets in
           applyAction now action payload (read_document r) = Next json'
           ∧ writes (handler now env event) gets puts = [put_body json' r])
  ∧ (∀ (S : Type) (get : S → string → GetReply) (put : S → string → PutBody → S * Z) st,
       let res := run get put st (handler now env event) in
       res.1 = st
       ∨ ∃ json',
           let r := get st (env_url env) in
           let written := put st (env_url env) (put_body json' r) in
           applyAction now action payload (read_document r) = Next json'
           ∧ res.1 = written.1
           ∧ res.2 = inl (if ok written.2 then ok_response else write_failed written.2)).
Proof.
  intros Hreq.
  assert (∀ gets puts,
            writes (handler now env event) gets puts = []
            ∨ ∃ json',
                let r := hd (mkGetReply 404 None) gets in
                applyAction now action payload (read_document r) = Next json'
                ∧ writes (handler now env event) gets puts = [put_body json' r]) as Hw.
  { intros gets puts.
    destruct (handler_writes now env event gets puts)
      as [Hnil | (a & p & json' & Hreq' & Ha & Hws)]; [by left |].
    rewrite Hreq in Hreq'. injection Hreq' as <- <-. right. by exists json'. }
  split; [| split; [| split]].
  - intros Hinv.
    assert (∀ gets puts, writes (handler now env event) gets puts = []) as Hnone.
    { intros gets puts. destruct (Hw gets puts) as [Hnil | (json' & Ha & _)]; [done |].
      destruct (invalid_input_bad now action payload
                  (read_document (hd (mkGetReply 404 None) gets)) Hinv) as [msg Hbad].
      simpl in Ha. congruence. }
    split; [intros json; by apply invalid_input_bad |]. split; [done |].
    intros S. by apply no_writes_run.
  - intros json status msg. apply bad_invalid_input.
  - done.
  - intros S get put st.
    destruct (handler_run now env event get put st)
      as [Hsame | (a & p & json' & Hreq' & Ha & Hst & Hres)]; [by left |].
    rewrite Hreq in Hreq'. injection Hreq' as <- <-. right. by exists json'.
Qed.

Lemma writes_whole_or_nothing_witness :
  (∀ gets puts,
     writes (handler 7 Ex.env (Ex.POST "addUser" (Ex.named "  "))) gets puts = [])
  ∧ (∀ gets puts,
       writes (handler 7 Ex.env (Ex.POST "addToQueue" (Ex.for_user VUndefined))) gets puts
       = [])
  ∧ (∀ gets puts,
       writes (handler 7 Ex.env (Ex.POST "resetAll" empty_payload)) gets puts = [])
  ∧ (∀ gets puts,
       writes (handler 7 Ex.env (Ex.POST "addUser" (Ex.named Ex.blank))) gets puts = []).
Proof.
  split; [| split; [| split]].
  - apply (writes_whole_or_nothing 7 Ex.env (Ex.POST "addUser" (Ex.named "  "))
             (VStr "addUser") (Ex.named "  ")); [reflexivity |].
    left. split; [reflexivity |]. exists "  ". split; reflexivity.
  - apply (writes_whole_or_nothing 7 Ex.env (Ex.POST "addToQueue" (Ex.for_user VUndefined))
             (VStr "addToQueue") (Ex.for_user VUndefined)); [reflexivity |].
    right. left. split; reflexivity.
  - apply (writes_whole_or_nothing 7 Ex.env (Ex.POST "resetAll" empty_payload)
             (VStr "resetAll") empty_payload); [reflexivity |].
    right. right. apply (bool_decide_unpack _). vm_compute. exact I.
  - apply (writes_whole_or_nothing 7 Ex.env (Ex.POST "addUser" (Ex.named Ex.blank))
             (VStr "addUser") (Ex.named Ex.blank)); [reflexivity |].
    left. split; [reflexivity |]. exists Ex.blank. split; reflexivity.
Defined.

(** ** Two invocations racing on the store *)

(** The token sent with a write is the token of the read. *)
Lemma handler_write_token now env event r gets puts b :
  read_token r ≠ Some "" →
  b ∈ writes (handler now env event) (r :: gets) puts →
  put_sha b = read_token r.
Proof.
  intros Hne Hb.
  destruct (handler_writes now env event (r :: gets) puts)
    as [Hnil | (a & p & json' & _ & _ & Hws)].
  - rewrite Hnil in Hb. by apply elem_of_nil in Hb.
  - simpl in Hws. rewrite Hws in Hb. apply list_elem_of_singleton in Hb as ->. simpl.
    destruct (read_token r) as [[|c s]|]; done.
Qed.

(** C3. Two invocations, of any two requests, read the store one after
    the other and then write in the same order. When the first write
    succeeds and leaves the object with a version other than the one both
    read, and the second invocation does send a write, then: both reads
    left the store as it was; both PUT requests carry exactly the version
    that was read (no token when there was no object); the store holds the
    document of the first write; the second write is refused with 409, the
    second invocation answers 500 with the message of the failure, and the
    store still holds the first document. More generally, every PUT request
    of the handler carries the token of the read that preceded it. *)
Theorem second_write_conflicts version_of nowA nowB env evA evB (st : Store) :
  let url := env_url env in
  let serve := step store_get (store_put version_of) in
  let s1 := serve st (handler nowA env evA) in
  let s2 := serve s1.1 (handler nowB env evB) in
  let s3 := serve s2.1 s1.2 in
  let s4 := serve s3.1 s2.2 in
  s3.2 = Ret ok_response →
  snd <$> s3.1 !! url ≠ snd <$> st !! url →
  is_write s2.2 = true →
  s1.1 = st ∧ s2.1 = st
  ∧ (∃ token jsonA kA,
       s1.2 = Put url token
                {| put_message := "EV state update"; put_content := jsonA;
                   put_sha := snd <$> st !! url |} kA
       ∧ s3.1 = <[url := (jsonA, version_of jsonA)]> st)
  ∧ (∃ token jsonB kB,
       s2.2 = Put url token
                {| put_message := "EV state update"; put_content := jsonB;
                   put_sha := snd <$> st !! url |} kB)
  ∧ s4.2 = Ret (bad 500 "Error: Repo write failed: 409")
  ∧ s4.1 = s3.1
  ∧ (∀ now event r gets puts b,
       read_token r ≠ Some "" →
       b ∈ writes (handler now env event) (r :: gets) puts →
       put_sha b = read_token r).
Proof.
  intros url serve s1 s2 s3 s4 Hok Hadv Hw.
  assert (read_token (store_get st url) = snd <$> st !! url) as Htok.
  { unfold store_get, read_token. by destruct (st !! url) as [[doc v]|]. }
  (* the two reads *)
  destruct (handler_shape nowB env evB) as [[resp HB] | (tokB & kB & _ & HB & HkB)].
  { exfalso. unfold s2 in Hw. by rewrite HB in Hw. }
  destruct (handler_shape nowA env evA) as [[resp HA] | (tokA & kA & _ & HA & HkA)].
  { exfalso. apply Hadv. unfold s3, s2, s1. by rewrite HA, HB. }
  assert (s1 = (st, kA (store_get st url))) as Hs1 by (unfold s1; by rewrite HA).
  assert (s2 = (st, kB (store_get st url))) as Hs2.
  { unfold s2. rewrite Hs1, HB. done. }
  (* the two writes *)
  destruct (HkA (store_get st url))
    as [[resp HrA] | (aA & pA & jsonA & kA' & _ & _ & HpA & HkA')].
  { exfalso. apply Hadv. unfold s3. by rewrite Hs2, Hs1, HrA. }
  destruct (HkB (store_get st url))
    as [[resp HrB] | (aB & pB & jsonB & kB' & _ & _ & HpB & HkB')].
  { exfalso. rewrite Hs2 in Hw. simpl in Hw. by rewrite HrB in Hw. }
  unfold put_body in HpA, HpB. fold url in HpA, HpB. rewrite Htok in HpA, HpB.
  set (tok := if truthy_str (snd <$> st !! url) then snd <$> st !! url else None) in *.
  assert (s3 = (if bool_decide (snd <$> st !! url = tok)
                then (<[url := (jsonA, version_of jsonA)]> st,
                      kA' (match st !! url with Some _ => 200 | None => 201 end))
                else (st, kA' 409))) as Hs3.
  { unfold s3. rewrite Hs2, Hs1. simpl. rewrite HpA. simpl. unfold store_put. simpl.
    by destruct (bool_decide _). }
  destruct (bool_decide (snd <$> st !! url = tok)) eqn:Hacc;
    [| exfalso; apply Hadv; by rewrite Hs3].
  apply bool_decide_eq_true in Hacc.
  assert (s4 = (s3.1, kB' 409)) as Hs4.
  { unfold s4. rewrite Hs2. simpl. rewrite HpB. simpl. unfold store_put. simpl.
    rewrite <- Hacc. by rewrite bool_decide_eq_false_2. }
  rewrite <- Hacc in HpA, HpB.
  split; [by rewrite Hs1 |]. split; [by rewrite Hs2 |].
  split. { exists tokA, jsonA, kA'. rewrite Hs1, Hs3. done. }
  split. { exists tokB, jsonB, kB'. by rewrite Hs2. }
  split. { rewrite Hs4. simpl. rewrite HkB'. reflexivity. }
  split; [by rewrite Hs4 |].
  intros now event r gets puts b. apply handler_write_token.
Qed.

Lemma second_write_conflicts_witness :
  let st := Ex.store_at Ex.queued "v4" in
  let serve := step store_get (store_put Ex.version_of) in
  let A := handler 7 Ex.env (Ex.POST "addUser" (Ex.named "Carol")) in
  let B := handler 8 Ex.env (Ex.POST "clearQueue" empty_payload) in
  let s1 := serve st A in
  let s2 := serve s1.1 B in
  let s3 := serve s2.1 s1.2 in
  let s4 := serve s3.1 s2.2 in
  s4.2 = Ret (bad 500 "Error: Repo write failed: 409") ∧ s4.1 = s3.1.
Proof.
  intros st serve A B s1 s2 s3 s4.
  assert (s3.2 = Ret ok_response) as H1 by (vm_compute; reflexivity).
  assert (snd <$> s3.1 !! env_url Ex.env ≠ snd <$> st !! env_url Ex.env) as H2
    by (vm_compute; discriminate).
  assert (is_write s2.2 = true) as H3 by (vm_compute; reflexivity).
  destruct (second_write_conflicts Ex.version_of 7 8 Ex.env
              (Ex.POST "addUser" (Ex.named "Carol")) (Ex.POST "clearQueue" empty_payload)
              (Ex.store_at Ex.queued "v4") H1 H2 H3)
    as (_ & _ & _ & _ & H5 & H6 & _).
  split; [exact H5 | exact H6].
Defined.

(** * Further properties of the engine *)

(** ** What an action does to the queue *)

Lemma Math_max_ge xs : ∀ x,
  x <= JS.Math_max x xs ∧ ∀ y, y ∈ xs → y <= JS.Math_max x xs.
Proof.
  unfold JS.Math_max. induction xs as [|z xs IH]; intros x; simpl.
  - split; [lia |]. intros y Hy. by apply elem_of_nil in Hy.
  - destruct (IH (Z.max x z)) as [Hx Hys]. split; [lia |].
    intros y [-> | Hy]%elem_of_cons; [lia | by apply Hys].
Qed.

(** The three ways [addToQueue] ends: the userId is falsy and the call is
    rejected; the user is on a spot or queued and nothing changes; or an
    entry for the user is pushed, with a position beyond all others. *)
Lemma addToQueue_cases now payload json :
  let userId := p_userId payload in
  (truthy userId = false ∧ addToQueue now payload json = Bad 400 "userId required")
  ∨ (truthy userId = true ∧ (onCharger json userId = true ∨ inQueue json userId = true)
     ∧ addToQueue now payload json = Next json)
  ∨ (truthy userId = true ∧ onCharger json userId = false ∧ inQueue json userId = false
     ∧ ∃ pos,
         addToQueue now payload json
         = Next (set_queue json (queue json ++ [mkEntry (VNum now) userId pos]))
         ∧ (∀ x, x ∈ queue json → q_position x < pos)
         ∧ (queue json = [] → pos = 1)).
Proof.
  intros userId. unfold addToQueue. fold userId.
  destruct (truthy userId) eqn:Ht; simpl; [| by left].
  right. destruct (onCharger json userId) eqn:Hc; simpl; [left; auto |].
  destruct (inQueue json userId) eqn:Hq; simpl; [left; auto |].
  right. repeat split; try done. eexists. split; [reflexivity |]. split; [| by intros ->].
  intros x Hx. destruct (queue json) as [|e es]; [by apply elem_of_nil in Hx |].
  destruct (Math_max_ge (map q_position es) (q_position e)) as [He Hes].
  apply elem_of_cons in Hx as [-> | Hx]; [lia |].
  assert (q_position x <= JS.Math_max (q_position e) (map q_position es)); [| lia].
  apply Hes. by apply (list_elem_of_fmap_2 q_position).
Qed.

Lemma endSession_queue_sublist payload json :
  queue (endSession payload json) `sublist_of` queue json.
Proof.
  unfold endSession. destruct (JS.find_ref _ _) as [[i spot]|]; [| done].
  destruct (backfill_cases (users json) (set_userId spot VNull) (queue json))
    as [(Heq & _) | (k & e & _ & _ & _ & _ & Heq & _)]; rewrite Heq; simpl; [done |].
  apply sublist_delete.
Qed.

Lemma fillSpots_queue_sublist json :
  queue (fillSpots json) `sublist_of` queue json.
Proof.
  rewrite fillSpots_fillLoop. simpl.
  by destruct (fillLoop_picks_spec (users json) (spots json) (queue json)) as (_ & _ & H).
Qed.

(** What an action other than [writeAll] does to the queue: it removes
    entries, or pushes one entry for the user of the call with a position
    beyond all others, or it is [moveQueue]. *)
Lemma engine_queue_cases now action payload json :
  action ≠ VStr "writeAll" →
  let json' := after (applyAction now action payload json) json in
  queue json' `sublist_of` queue json
  ∨ (∃ e, queue json' = queue json ++ [e]
          ∧ truthy (q_userId e) = true
          ∧ ∀ x, x ∈ queue json → q_position x < q_position e)
  ∨ (action = VStr "moveQueue" ∧ json' = moveQueue payload json).
Proof.
  intros Hw. unfold applyAction.
  repeat match goal with
         | |- context [strict_eq action ?a] =>
             destruct (strict_eq action a) eqn:?
         end; simpl; try (by left).
  - left. unfold addUser. destruct (or_else _ _); simpl; try done.
    by destruct (String.eqb _ _).
  - destruct (addToQueue_cases now payload json)
      as [[_ ->] | [(_ & _ & ->) | (Ht & _ & _ & pos & -> & Hpos & _)]];
      simpl; [by left | by left |].
    right. left. eexists. split; [reflexivity |]. done.
  - left. apply filter_sublist.
  - right. right. split; [by apply strict_eq_true | done].
  - left. apply endSession_queue_sublist.
  - left. apply fillSpots_queue_sublist.
  - left. apply sublist_nil_l.
  - exfalso. apply Hw. by apply strict_eq_true.
Qed.

Lemma Forall_sublist_of {A : Type} (P : A → Prop) (l k : list A) :
  l `sublist_of` k → Forall P k → Forall P l.
Proof.
  rewrite !Forall_forall. intros Hsub H x Hx. apply H. by eapply elem_of_sublist.
Qed.

Lemma moveQueue_positions payload json :
  q_position <$> queue (moveQueue payload json) ≡ₚ q_position <$> queue json.
Proof.
  destruct (moveQueue_cases payload json)
    as [[_ ->] | (i & j & A & B & _ & _ & HA & HB & _ & ->)]; simpl.
  - by rewrite sort_perm.
  - rewrite (exchange_insert _ _ _ _ _ HA HB), !list_fmap_insert. simpl.
    rewrite <- (sort_perm by_position (queue json)) at 2.
    apply exchange_Permutation; by rewrite list_lookup_fmap, ?HA, ?HB.
Qed.

(** ** Invariants of the queue *)

(** X1. On a document whose positions are safe integers, every action of
    the engine other than [writeAll] keeps the positions of the queue
    entries pairwise different. (Past the safe integers the sum of
    [addToQueue] is rounded by the code and can repeat the largest
    position; such documents are left out.) *)
Theorem engine_keeps_positions_distinct now action payload json :
  action ≠ VStr "writeAll" →
  safe_positions json →
  positions_distinct json →
  positions_distinct (after (applyAction now action payload json) json).
Proof.
  intros Hw _ Hnd. unfold positions_distinct in *.
  destruct (engine_queue_cases now action payload json Hw)
    as [Hsub | [(e & -> & _ & Hpos) | [_ ->]]].
  - apply (sublist_NoDup _ (q_position <$> queue json)); [done | by apply fmap_sublist].
  - rewrite fmap_app. apply NoDup_app. split; [done |]. split; [| apply NoDup_singleton].
    intros p (x & -> & Hx)%list_elem_of_fmap Hin%list_elem_of_singleton.
    specialize (Hpos x Hx). simpl in Hin. lia.
  - by rewrite moveQueue_positions.
Qed.

Lemma engine_keeps_positions_distinct_witness :
  positions_distinct
    (after (applyAction 9 (VStr "addToQueue") (Ex.for_user (VNum 7)) Ex.reordered)
       Ex.reordered).
Proof.
  apply (engine_keeps_positions_distinct 9 (VStr "addToQueue") (Ex.for_user (VNum 7))
           Ex.reordered).
  - discriminate.
  - by_evaluation.
  - by_evaluation.
Defined.

(** X2. Every action of the engine other than [writeAll] keeps the userIds
    of the queue entries truthy: the engine never queues [null],
    [undefined], 0 or the empty string. *)
Theorem engine_keeps_queue_users_truthy now action payload json :
  action ≠ VStr "writeAll" →
  queue_users_truthy json →
  queue_users_truthy (after (applyAction now action payload json) json).
Proof.
  intros Hw Ht. unfold queue_users_truthy, queued_users in *.
  destruct (engine_queue_cases now action payload json Hw)
    as [Hsub | [(e & -> & He & _) | [_ ->]]].
  - apply (Forall_sublist_of _ _ (q_userId <$> queue json)); [by apply fmap_sublist | done].
  - rewrite fmap_app. apply Forall_app. split; [done |]. by repeat constructor.
  - pose proof (moveQueue_queued_users payload json) as Hperm.
    unfold queued_users in Hperm. by rewrite Hperm.
Qed.

Lemma engine_keeps_queue_users_truthy_witness :
  queue_users_truthy
    (after (applyAction 9 (VStr "moveQueue") (Ex.move (VNum 1) 1) Ex.queued) Ex.queued).
Proof.
  apply (engine_keeps_queue_users_truthy 9 (VStr "moveQueue") (Ex.move (VNum 1) 1) Ex.queued).
  - discriminate.
  - by_evaluation.
Defined.

(** ** The order of the queue array *)

Lemma in_priority_order_strong (q : list QueueEntry) :
  in_priority_order q ↔ StronglySorted (fun a b => q_position a <= q_position b) q.
Proof.
  unfold in_priority_order. split.
  - apply Sorted_StronglySorted. intros a b c. lia.
  - apply StronglySorted_Sorted.
Qed.

Lemma StronglySorted_sublist {A : Type} (R : A → A → Prop) (l k : list A) :
  l `sublist_of` k → StronglySorted R k → StronglySorted R l.
Proof.
  induction 1 as [| x l k Hsub IH | x l k Hsub IH]; intros Hk.
  - constructor.
  - apply StronglySorted_inv in Hk as [Hk Hx]. constructor; [by apply IH |].
    by apply (Forall_sublist_of _ l k).
  - apply StronglySorted_inv in Hk as [Hk _]. by apply IH.
Qed.

Lemma StronglySorted_snoc {A : Type} (R : A → A → Prop) (l : list A) x :
  StronglySorted R l → Forall (fun y => R y x) l → StronglySorted R (l ++ [x]).
Proof.
  induction 1 as [| y l Hl IH Hy]; intros Hx; simpl.
  - by repeat constructor.
  - apply Forall_cons in Hx as [Hyx Hx]. constructor; [by apply IH |].
    apply Forall_app. split; [done |]. by repeat constructor.
Qed.

(** X3. Every action other than [moveQueue] and [writeAll] keeps the queue
    array in priority order (positions ascending along the array): entries
    leave the queue without reordering it, and [addToQueue] pushes at the
    end with the largest position. *)
Theorem engine_keeps_priority_order now action payload json :
  action ≠ VStr "writeAll" →
  action ≠ VStr "moveQueue" →
  in_priority_order (queue json) →
  in_priority_order (queue (after (applyAction now action payload json) json)).
Proof.
  intros Hw Hm. rewrite !in_priority_order_strong. intros Hs.
  destruct (engine_queue_cases now action payload json Hw)
    as [Hsub | [(e & -> & _ & Hpos) | [Heq _]]]; [| | done].
  - by apply (StronglySorted_sublist _ _ (queue json)).
  - apply StronglySorted_snoc; [done |]. apply Forall_forall.
    intros x Hx. specialize (Hpos x Hx). lia.
Qed.

Lemma engine_keeps_priority_order_witness :
  in_priority_order
    (queue (after (applyAction 9 (VStr "addToQueue") (Ex.for_user (VNum 7)) Ex.queued)
              Ex.queued)).
Proof.
  apply (engine_keeps_priority_order 9 (VStr "addToQueue") (Ex.for_user (VNum 7)) Ex.queued).
  - discriminate.
  - discriminate.
  - repeat constructor; simpl; lia.
Defined.

(** ** What the engine leaves alone *)

Lemma fillSpots_spot_identities json :
  spot_identity <$> spots (fillSpots json) = spot_identity <$> spots json.
Proof.
  rewrite fillSpots_fillLoop. simpl.
  pose proof (fillLoop_given (users json) (spots json) (queue json)) as H.
  induction H as [| sp sp' l l' Hsp _ IH]; [done |].
  rewrite !fmap_cons, IH. f_equal.
  by destruct Hsp as [-> | (u & _ & ->)].
Qed.

Lemma endSession_spot_identities payload json :
  spot_identity <$> spots (endSession payload json) = spot_identity <$> spots json.
Proof.
  unfold endSession. destruct (JS.find_ref _ _) as [[i spot]|] eqn:Hf; [| done].
  apply find_ref_lookup in Hf as [Hi _].
  pose proof (backfill_spot (users json) (set_userId spot VNull) (queue json)) as Hs.
  destruct (backfill _ _ _) as [spot' q']. simpl in *.
  rewrite list_fmap_insert. apply list_insert_id.
  rewrite list_lookup_fmap, Hi. simpl. f_equal.
  by destruct Hs as [-> | (u & _ & ->)].
Qed.

(** X4. No action other than [writeAll] creates, removes, renames or
    reorders spots: the ids, types and labels of the spots, in order, are
    the same after the action; only occupants change. *)
Theorem engine_keeps_spot_identities now action payload json :
  action ≠ VStr "writeAll" →
  spot_identity <$> spots (after (applyAction now action payload json) json)
  = spot_identity <$> spots json.
Proof.
  intros Hw. unfold applyAction.
  repeat match goal with
         | |- context [strict_eq action ?a] =>
             destruct (strict_eq action a) eqn:?
         end; simpl; try done.
  - unfold addUser. destruct (or_else _ _); simpl; try done.
    by destruct (String.eqb _ _).
  - by destruct (addToQueue_cases now payload json)
      as [[_ ->] | [(_ & _ & ->) | (_ & _ & _ & pos & -> & _)]].
  - by destruct (moveQueue_frame payload json) as (_ & -> & _).
  - apply endSession_spot_identities.
  - apply fillSpots_spot_identities.
  - exfalso. apply Hw. by apply strict_eq_true.
Qed.

Lemma engine_keeps_spot_identities_witness :
  spot_identity
    <$> spots (after (applyAction 9 (VStr "fillSpots") empty_payload Ex.queued) Ex.queued)
  = spot_identity <$> spots Ex.queued.
Proof.
  apply (engine_keeps_spot_identities 9 (VStr "fillSpots") empty_payload Ex.queued).
  discriminate.
Defined.

(** X5. No action other than [writeAll] removes or changes a user or
    touches [lastReset]: the users before the action are a prefix of the
    users after it, and they are the same unless the action is
    [addUser]. *)
Theorem engine_keeps_users now action payload json :
  action ≠ VStr "writeAll" →
  let json' := after (applyAction now action payload json) json in
  users json `prefix_of` users json'
  ∧ lastReset json' = lastReset json
  ∧ (action ≠ VStr "addUser" → users json' = users json).
Proof.
  intros Hw. unfold applyAction.
  repeat match goal with
         | |- context [strict_eq action ?a] =>
             destruct (strict_eq action a) eqn:?
         end; simpl; try done.
  - split; [| split].
    + unfold addUser. destruct (or_else _ _); simpl; try done.
      destruct (String.eqb _ _); simpl; [done |]. by apply prefix_app_r.
    + unfold addUser. destruct (or_else _ _); simpl; try done.
      by destruct (String.eqb _ _).
    + intros Hne. exfalso. apply Hne. by apply strict_eq_true.
  - by destruct (addToQueue_cases now payload json)
      as [[_ ->] | [(_ & _ & ->) | (_ & _ & _ & pos & -> & _)]].
  - by destruct (moveQueue_frame payload json) as (-> & _ & ->).
  - unfold endSession. destruct (JS.find_ref _ _) as [[i spot]|]; [| done].
    by destruct (backfill _ _ _).
  - by rewrite fillSpots_fillLoop.
  - exfalso. apply Hw. by apply strict_eq_true.
Qed.

Lemma engine_keeps_users_witness :
  users Ex.queued
  `prefix_of` users (after (applyAction 9 (VStr "addUser") (Ex.named "Carol") Ex.queued)
                       Ex.queued).
Proof.
  apply (engine_keeps_users 9 (VStr "addUser") (Ex.named "Carol") Ex.queued).
  discriminate.
Defined.

(** ** Documents reached from the default document *)

Lemma after_consistent now action payload json :
  action ≠ VStr "writeAll" →
  consistent json →
  consistent (after (applyAction now action payload json) json).
Proof.
  intros Hw H. unfold applyAction.
  destruct (strict_eq action (VStr "addUser")); [by apply addUser_consistent |].
  destruct (strict_eq action (VStr "addToQueue")); [by apply addToQueue_consistent |].
  destruct (strict_eq action (VStr "removeFromQueue"));
    [by apply removeFromQueue_consistent |].
  destruct (strict_eq action (VStr "moveQueue")); [by apply moveQueue_consistent |].
  destruct (strict_eq action (VStr "endSession")); [by apply endSession_consistent |].
  destruct (strict_eq action (VStr "fillSpots")); [by apply fillSpots_consistent |].
  destruct (strict_eq action (VStr "clearQueue")); [by apply clearQueue_consistent |].
  destruct (strict_eq action (VStr "writeAll")) eqn:Ha; [| done].
  exfalso. apply Hw. by apply strict_eq_true.
Qed.

Lemma after_queue_invariants now action payload json :
  action ≠ VStr "writeAll" →
  positions_distinct json ∧ queue_users_truthy json →
  let json' := after (applyAction now action payload json) json in
  positions_distinct json' ∧ queue_users_truthy json'.
Proof.
  intros Hw [Hnd Ht]. unfold positions_distinct, queue_users_truthy, queued_users in *.
  destruct (engine_queue_cases now action payload json Hw)
    as [Hsub | [(e & -> & He & Hpos) | [_ ->]]].
  - split.
    + apply (sublist_NoDup _ (q_position <$> queue json)); [done | by apply fmap_sublist].
    + apply (Forall_sublist_of _ _ (q_userId <$> queue json)); [by apply fmap_sublist | done].
  - rewrite !fmap_app. split.
    + apply NoDup_app. split; [done |]. split; [| apply NoDup_singleton].
      intros p (x & -> & Hx)%list_elem_of_fmap Hin%list_elem_of_singleton.
      specialize (Hpos x Hx). simpl in Hin. lia.
    + apply Forall_app. split; [done |]. by repeat constructor.
  - split; [by rewrite moveQueue_positions |].
    pose proof (moveQueue_queued_users payload json) as Hperm.
    unfold queued_users in Hperm. by rewrite Hperm.
Qed.

Lemma after_spot_identities now action payload json :
  action ≠ VStr "writeAll" →
  spot_identity <$> spots (after (applyAction now action payload json) json)
  = spot_identity <$> spots json.
Proof.
  intros Hw. unfold applyAction.
  repeat match goal with
         | |- context [strict_eq action ?a] =>
             destruct (strict_eq action a) eqn:?
         end; simpl; try done.
  - unfold addUser. destruct (or_else _ _); simpl; try done.
    by destruct (String.eqb _ _).
  - by destruct (addToQueue_cases now payload json)
      as [[_ ->] | [(_ & _ & ->) | (_ & _ & _ & pos & -> & _)]].
  - by destruct (moveQueue_frame payload json) as (_ & -> & _).
  - apply endSession_spot_identities.
  - apply fillSpots_spot_identities.
  - exfalso. apply Hw. by apply strict_eq_true.
Qed.

Lemma replay_well_kept_from calls : ∀ json,
  without_writeAll calls → well_kept json → well_kept (replay calls json).
Proof.
  unfold replay, without_writeAll.
  induction calls as [|[[now action] payload] calls IH]; intros json Hc Hk; simpl; [done |].
  apply Forall_cons in Hc as [Hw Hc]. simpl in Hw.
  apply IH; [done |]. destruct Hk as (H1 & H2 & H3 & H4).
  destruct (after_queue_invariants now action payload json Hw (conj H2 H3)) as [H2' H3'].
  split; [by apply after_consistent |]. split; [done |]. split; [done |].
  by rewrite after_spot_identities.
Qed.

(** X6. Every document the engine reaches from the default document by
    calls other than [writeAll] is well kept: no user is both on a spot and
    queued, no user has two queue entries, every queue entry has a truthy
    userId and a position of its own, and the spots are the four spots of
    the default document, in order, with their ids, types and labels. *)
Theorem replay_well_kept calls :
  without_writeAll calls →
  let json := replay calls defaultState in
  no_double_placement json
  ∧ one_entry_per_user json
  ∧ positions_distinct json
  ∧ queue_users_truthy json
  ∧ spot_identity <$> spots json = spot_identity <$> spots defaultState.
Proof.
  intros Hc.
  assert (well_kept defaultState) as Hd.
  { split; [by_evaluation |]. split; [by_evaluation |]. split; [by_evaluation | done]. }
  destruct (replay_well_kept_from calls defaultState Hc Hd)
    as ((H1 & _ & H2) & H3 & H4 & H5).
  done.
Qed.

Lemma replay_well_kept_witness :
  no_double_placement (replay Ex.history defaultState).
Proof.
  apply (replay_well_kept Ex.history).
  repeat constructor; discriminate.
Defined.

(** ** Joining and leaving the queue *)

Lemma Math_max_in xs : ∀ x, JS.Math_max x xs ∈ x :: xs.
Proof.
  unfold JS.Math_max. induction xs as [|z xs IH]; intros x; simpl; [left |].
  specialize (IH (Z.max x z)). apply elem_of_cons in IH as [-> | IH].
  - destruct (Z.max_spec x z) as [[_ ->] | [_ ->]]; [right; left | left].
  - right. by right.
Qed.

(** X7. On a document whose positions are safe integers, a user with a
    truthy id who is neither on a spot nor queued is queued last:
    [addToQueue] pushes one entry for the user at the end of the queue
    array and changes nothing else; its position is 1 in an empty queue and
    otherwise one more than the largest position in the queue, a sum that
    is at most 2^53 and so is not rounded; it is beyond every other
    position; the user is queued afterwards. *)
Theorem addToQueue_appends_last now payload json :
  let userId := p_userId payload in
  safe_positions json →
  truthy userId = true →
  onCharger json userId = false →
  inQueue json userId = false →
  ∃ pos,
    addToQueue now payload json
    = Next (set_queue json (queue json ++ [mkEntry (VNum now) userId pos]))
    ∧ - 2 ^ 53 < pos <= 2 ^ 53
    ∧ (∀ x, x ∈ queue json → q_position x < pos)
    ∧ (queue json = [] → pos = 1)
    ∧ (queue json ≠ [] → ∃ x, x ∈ queue json ∧ pos = q_position x + 1)
    ∧ inQueue (after (addToQueue now payload json) json) userId = true.
Proof.
  intros userId Hsafe Ht Hc Hq. subst userId.
  destruct (addToQueue_cases now payload json)
    as [[Hf _] | [(_ & [Hc' | Hq'] & _) | (_ & _ & _ & pos & Heq & Hpos & Hone)]];
    try congruence.
  assert (queue json ≠ [] → ∃ x, x ∈ queue json ∧ pos = q_position x + 1) as Hmax;
    last first.
  { exists pos. split; [done |]. split.
    { destruct (queue json) as [|e es] eqn:Hqueue.
      - rewrite (Hone eq_refl). lia.
      - destruct Hmax as (x & Hx & ->); [done |].
        unfold safe_positions in Hsafe. rewrite Hqueue in Hsafe.
        rewrite Forall_forall in Hsafe.
        specialize (Hsafe (q_position x) (list_elem_of_fmap_2 q_position _ _ Hx)). lia. }
    split; [done |]. split; [done |]. split; [done |].
    rewrite Heq. simpl. apply inQueue_queued. unfold queued_users. simpl.
    rewrite fmap_app. apply elem_of_app. right. simpl. left. }
  - intros Hne. unfold addToQueue in Heq.
    rewrite Ht, Hc, Hq in Heq. simpl in Heq.
    destruct (queue json) as [|e es] eqn:Hqueue; [done |].
    injection Heq as Heq. apply app_inj_tail in Heq as [_ Heq]. injection Heq as <-.
    pose proof (Math_max_in (map q_position es) (q_position e)) as Hin.
    apply elem_of_cons in Hin as [Hin | Hin].
    + exists e. split; [left | lia].
    + apply (list_elem_of_fmap_1 q_position) in Hin as (x & Hx & Hxin).
      exists x. split; [by right | lia].
Qed.

Lemma addToQueue_appends_last_witness :
  ∃ pos,
    addToQueue 9 (Ex.for_user (VNum 7)) Ex.reordered
    = Next (set_queue Ex.reordered
              (queue Ex.reordered ++ [mkEntry (VNum 9) (VNum 7) pos]))
    ∧ (∀ x, x ∈ queue Ex.reordered → q_position x < pos).
Proof.
  assert (safe_positions Ex.reordered) as Hsafe by by_evaluation.
  destruct (addToQueue_appends_last 9 (Ex.for_user (VNum 7)) Ex.reordered
              Hsafe eq_refl eq_refl eq_refl) as (pos & H1 & _ & H2 & _).
  exists pos. split; [exact H1 | exact H2].
Defined.

Lemma filter_all {A : Type} (p : A → bool) (l : list A) :
  (∀ x, x ∈ l → p x = true) → JS.filter p l = l.
Proof.
  induction l as [|y l IH]; intros H; simpl; [done |].
  rewrite (H y); [| left]. f_equal. apply IH. intros x Hx. apply H. by right.
Qed.

Lemma filter_filter {A : Type} (p : A → bool) (l : list A) :
  JS.filter p (JS.filter p l) = JS.filter p l.
Proof.
  induction l as [|y l IH]; simpl; [done |].
  destruct (p y) eqn:Hy; simpl; [| done]. by rewrite Hy, IH.
Qed.

Lemma filter_app {A : Type} (p : A → bool) (l k : list A) :
  JS.filter p (l ++ k) = JS.filter p l ++ JS.filter p k.
Proof.
  induction l as [|y l IH]; simpl; [done |]. destruct (p y); simpl; by rewrite IH.
Qed.

Lemma filter_elem_of {A : Type} (p : A → bool) (l : list A) x :
  x ∈ JS.filter p l ↔ x ∈ l ∧ p x = true.
Proof.
  induction l as [|y l IH]; simpl.
  - split; [intros H; by apply elem_of_nil in H | intros [H _]; by apply elem_of_nil in H].
  - destruct (p y) eqn:Hy.
    + rewrite !elem_of_cons, IH.
      split; [intros [-> | [? ?]]; auto | intros [[-> | ?] ?]; auto].
    + rewrite elem_of_cons, IH.
      split; [intros [? ?]; auto | intros [[-> | ?] ?]; [congruence | auto]].
Qed.

(** X8. [removeFromQueue] removes every entry of the user and nothing
    else: afterwards the user is not queued, every other user is queued
    exactly when it was before, the entries that stay keep their order, a
    second call changes nothing, and a call for a user that is not queued
    leaves the document as it was. *)
Theorem removeFromQueue_removes_user payload json :
  let json' := removeFromQueue payload json in
  inQueue json' (p_userId payload) = false
  ∧ (∀ u, u ≠ p_userId payload → inQueue json' u = inQueue json u)
  ∧ (∀ e, e ∈ queue json' ↔ e ∈ queue json ∧ q_userId e ≠ p_userId payload)
  ∧ queue json' `sublist_of` queue json
  ∧ removeFromQueue payload json' = json'
  ∧ (inQueue json (p_userId payload) = false → json' = json)
  ∧ users json' = users json ∧ spots json' = spots json
  ∧ lastReset json' = lastReset json.
Proof.
  intros json'. unfold json', removeFromQueue. simpl.
  set (keep := fun q => negb (strict_eq (q_userId q) (p_userId payload))).
  assert (∀ e, e ∈ JS.filter keep (queue json)
               ↔ e ∈ queue json ∧ q_userId e ≠ p_userId payload) as Hin.
  { intros e. rewrite filter_elem_of. unfold keep.
    by rewrite negb_true_iff, strict_eq_false. }
  split.
  { apply not_true_iff_false. rewrite inQueue_queued. unfold queued_users. simpl.
    intros (e & Heq & He)%list_elem_of_fmap. apply Hin in He as [_ Hne]. done. }
  split.
  { intros u Hu. apply eq_true_iff_eq. rewrite !inQueue_queued. unfold queued_users. simpl.
    rewrite !list_elem_of_fmap. split.
    - intros (e & -> & He). apply Hin in He as [He _]. by exists e.
    - intros (e & -> & He). exists e. split; [done |]. by apply Hin. }
  split; [done |]. split; [apply filter_sublist |]. split.
  { unfold set_queue. simpl. by rewrite filter_filter. }
  split; [| done].
  intros Hq. unfold inQueue in Hq. rewrite some_false in Hq.
  rewrite filter_all; [apply set_queue_same |].
  intros e He. unfold keep. by rewrite (Hq e He).
Qed.

(** X9. Joining the queue and leaving it again is a round trip: for a user
    with a truthy id who is neither on a spot nor queued, [addToQueue]
    followed by [removeFromQueue] for the same user gives back the
    document. *)
Theorem addToQueue_removeFromQueue now payload json :
  truthy (p_userId payload) = true →
  onCharger json (p_userId payload) = false →
  inQueue json (p_userId payload) = false →
  removeFromQueue payload (after (addToQueue now payload json) json) = json.
Proof.
  intros Ht Hc Hq.
  destruct (addToQueue_cases now payload json)
    as [[Hf _] | [(_ & [Hc' | Hq'] & _) | (_ & _ & _ & pos & -> & _)]];
    try congruence.
  unfold removeFromQueue. simpl. rewrite filter_app. simpl.
  rewrite strict_eq_refl. simpl. rewrite app_nil_r.
  unfold inQueue in Hq. rewrite some_false in Hq.
  rewrite filter_all; [by destruct json |].
  intros e He. by rewrite (Hq e He).
Qed.

Lemma addToQueue_removeFromQueue_witness :
  removeFromQueue (Ex.for_user (VNum 7))
    (after (addToQueue 9 (Ex.for_user (VNum 7)) Ex.reordered) Ex.reordered)
  = Ex.reordered.
Proof.
  apply (addToQueue_removeFromQueue 9 (Ex.for_user (VNum 7)) Ex.reordered); reflexivity.
Defined.

(** ** Registering a user *)

(** Removing the leading characters of a list [ws] of non-empty byte
    sequences. *)
Section Strip.
Variable ws : list (list ascii).
Hypothesis ws_nonempty : Forall (λ w, w ≠ []) ws.

Lemma drop_prefix_Some w s r : JS.drop_prefix w s = Some r ↔ s = w ++ r.
Proof.
  revert s. induction w as [|a w IH]; intros s; simpl.
  - split; [by intros [= ->] | by intros ->].
  - destruct s as [|b s].
    + split; [done | intros H; discriminate].
    + destruct (Ascii.eqb a b) eqn:E.
      * apply Ascii.eqb_eq in E as ->. rewrite IH.
        split; [by intros -> | by intros [= ->]].
      * apply Ascii.eqb_neq in E. split; [done | intros [= -> _]; done].
Qed.

Lemma strip_one_Some s r : JS.strip_one ws s = Some r → ∃ w, w ∈ ws ∧ s = w ++ r.
Proof.
  clear ws_nonempty. induction ws as [|w ws' IH]; simpl; [done |].
  destruct (JS.drop_prefix w s) as [r'|] eqn:E.
  - intros [= ->]. exists w. split; [left |]. by apply drop_prefix_Some.
  - intros H. destruct (IH H) as (w' & Hin & ->). exists w'. split; [by right | done].
Qed.

Lemma strip_one_prefix w s r : w ∈ ws → s = w ++ r → is_Some (JS.strip_one ws s).
Proof.
  clear ws_nonempty. intros Hin ->. induction ws as [|w' ws' IH]; simpl.
  - by apply elem_of_nil in Hin.
  - destruct (JS.drop_prefix w' (w ++ r)) as [r'|] eqn:E; [done |].
    apply elem_of_cons in Hin as [-> | Hin]; [| by apply IH].
    assert (JS.drop_prefix w' (w' ++ r) = Some r) as E' by by apply drop_prefix_Some.
    congruence.
Qed.

Lemma strip_one_shorter s r : JS.strip_one ws s = Some r → (length r < length s)%nat.
Proof.
  intros H. destruct (strip_one_Some _ _ H) as (w & Hin & ->).
  rewrite Forall_forall in ws_nonempty. specialize (ws_nonempty _ Hin).
  rewrite length_app. destruct w; [done | simpl; lia].
Qed.

Lemma strip_fuel_stops n s :
  (length s ≤ n)%nat → JS.strip_one ws (JS.strip_fuel ws n s) = None.
Proof.
  revert s. induction n as [|n IH]; intros s Hn; simpl.
  - destruct (JS.strip_one ws s) as [r|] eqn:E; [| done].
    apply strip_one_shorter in E. lia.
  - destruct (JS.strip_one ws s) as [r|] eqn:E; [| done].
    apply IH. apply strip_one_shorter in E. lia.
Qed.

Lemma strip_all_stops s : JS.strip_one ws (JS.strip_all ws s) = None.
Proof. by apply strip_fuel_stops. Qed.

Lemma strip_fuel_suffix n s : JS.strip_fuel ws n s `suffix_of` s.
Proof.
  clear ws_nonempty. revert s. induction n as [|n IH]; intros s; simpl; [done |].
  destruct (JS.strip_one ws s) as [r|] eqn:E; [| done].
  destruct (strip_one_Some _ _ E) as (w & _ & ->).
  etrans; [apply IH |]. by apply suffix_app_r.
Qed.

Lemma strip_all_fixed s : JS.strip_one ws s = None → JS.strip_all ws s = s.
Proof.
  clear ws_nonempty. unfold JS.strip_all. intros H.
  destruct (length s); simpl; [done |]. by rewrite H.
Qed.

Lemma strip_one_None_prefix s s' :
  JS.strip_one ws s = None → s' `prefix_of` s → JS.strip_one ws s' = None.
Proof.
  clear ws_nonempty. intros H [k ->].
  destruct (JS.strip_one ws s') as [r|] eqn:E; [| done].
  destruct (strip_one_Some _ _ E) as (w & Hin & ->).
  destruct (strip_one_prefix w ((w ++ r) ++ k) (r ++ k) Hin) as [x Hx].
  { by rewrite <- (assoc_L (++)). }
  congruence.
Qed.
End Strip.

Lemma white_space_nonempty : Forall (λ w, w ≠ []) JS.white_space.
Proof. repeat constructor; done. Qed.

Lemma white_space_reverse_nonempty : Forall (λ w, w ≠ []) (reverse <$> JS.white_space).
Proof. repeat constructor; done. Qed.

Lemma trimStart_no_lead s : starts_with_space (JS.trimStart s) = false.
Proof.
  unfold starts_with_space, JS.trimStart. rewrite list_ascii_of_string_of_list_ascii.
  rewrite (strip_all_stops _ white_space_nonempty).
  apply bool_decide_eq_false. by intros [x Hx].
Qed.

Lemma trimEnd_no_trail s : ends_with_space (JS.trimEnd s) = false.
Proof.
  unfold ends_with_space, JS.trimEnd. rewrite list_ascii_of_string_of_list_ascii.
  rewrite reverse_involutive.
  rewrite (strip_all_stops _ white_space_reverse_nonempty).
  apply bool_decide_eq_false. by intros [x Hx].
Qed.

Lemma not_starts s :
  starts_with_space s = false
  ↔ JS.strip_one JS.white_space (list_ascii_of_string s) = None.
Proof.
  unfold starts_with_space. rewrite bool_decide_eq_false.
  destruct (JS.strip_one _ _); split; try done. intros H; destruct H; by eexists.
Qed.

Lemma not_ends s :
  ends_with_space s = false
  ↔ JS.strip_one (reverse <$> JS.white_space) (reverse (list_ascii_of_string s)) = None.
Proof.
  unfold ends_with_space. rewrite bool_decide_eq_false.
  destruct (JS.strip_one _ _); split; try done. intros H; destruct H; by eexists.
Qed.

Lemma trimEnd_keeps_lead s :
  starts_with_space s = false → starts_with_space (JS.trimEnd s) = false.
Proof.
  rewrite !not_starts. intros H. unfold JS.trimEnd.
  rewrite list_ascii_of_string_of_list_ascii.
  apply (strip_one_None_prefix _ _ _ H).
  pose proof (strip_fuel_suffix (reverse <$> JS.white_space)
                (length (reverse (list_ascii_of_string s)))
                (reverse (list_ascii_of_string s))) as Hs.
  apply suffix_prefix_reverse in Hs. by rewrite reverse_involutive in Hs.
Qed.

Lemma trimStart_fixed s : starts_with_space s = false → JS.trimStart s = s.
Proof.
  rewrite not_starts. intros H. unfold JS.trimStart.
  by rewrite (strip_all_fixed _ _ H), string_of_list_ascii_of_string.
Qed.

Lemma trimEnd_fixed s : ends_with_space s = false → JS.trimEnd s = s.
Proof.
  rewrite not_ends. intros H. unfold JS.trimEnd.
  by rewrite (strip_all_fixed _ _ H), reverse_involutive, string_of_list_ascii_of_string.
Qed.

(** X10. [addUser] with a name that is not blank registers one user, at
    the end of the users, and changes nothing else. The user's id is the
    clock, its name is the given name without the white space at its ends
    (it is not empty, neither starts nor ends with white space, and
    trimming it again changes nothing), and its preference is the given
    one, or Both when none or a falsy one is given. *)
Theorem addUser_registers now payload json s :
  p_name payload = VStr s →
  JS.trim s ≠ "" →
  let name := JS.trim s in
  let pref := or_else (p_pref payload) (VStr "Both") in
  addUser now payload json
  = Next (set_users json (users json ++ [mkUser (VNum now) name pref]))
  ∧ starts_with_space name = false
  ∧ ends_with_space name = false
  ∧ JS.trim name = name
  ∧ truthy pref = true
  ∧ (truthy (p_pref payload) = false → pref = VStr "Both").
Proof.
  intros Hname Hne name pref.
  assert (starts_with_space name = false) as Hs.
  { apply trimEnd_keeps_lead, trimStart_no_lead. }
  assert (ends_with_space name = false) as He by apply trimEnd_no_trail.
  split.
  { unfold addUser. rewrite Hname. unfold or_else at 1.
    destruct (truthy (VStr s)) eqn:Ht.
    - fold name. destruct (String.eqb name "") eqn:Hn; [by apply String.eqb_eq in Hn |].
      done.
    - simpl in Ht. apply negb_false_iff, String.eqb_eq in Ht. by subst s. }
  split; [done |]. split; [done |]. split.
  { unfold JS.trim at 1. by rewrite (trimStart_fixed _ Hs), (trimEnd_fixed _ He). }
  unfold pref, or_else. split; destruct (truthy (p_pref payload)) eqn:Hp; done.
Qed.

Lemma addUser_registers_witness :
  addUser 9 (Ex.named "  Dana Scully ") Ex.queued
  = Next (set_users Ex.queued
            (users Ex.queued ++ [mkUser (VNum 9) "Dana Scully" (VStr "Both")]))
  ∧ addUser 9 (Ex.named Ex.padded) Ex.queued
    = Next (set_users Ex.queued
              (users Ex.queued ++ [mkUser (VNum 9) "Dana Scully" (VStr "Both")])).
Proof.
  split.
  - apply (addUser_registers 9 (Ex.named "  Dana Scully ") Ex.queued "  Dana Scully ").
    + reflexivity.
    + discriminate.
  - apply (addUser_registers 9 (Ex.named Ex.padded) Ex.queued Ex.padded).
    + reflexivity.
    + discriminate.
Defined.

(** ** Ending a session on one spot *)

Lemma find_ref_none {A : Type} (p : A → bool) (l : list A) :
  JS.some p l = false → JS.find_ref p l = None.
Proof.
  induction l as [|y l IH]; simpl; [done |].
  destruct (p y); [done |]. intros H. by rewrite (IH H).
Qed.

(** X11. [endSession] for a spotId that no spot has (among them a missing
    spotId) leaves the document as it was. *)
Theorem endSession_unknown_spot payload json :
  JS.some (fun s => strict_eq (s_id s) (p_spotId payload)) (spots json) = false →
  endSession payload json = json.
Proof. intros H. unfold endSession. by rewrite (find_ref_none _ _ H). Qed.

Lemma endSession_unknown_spot_witness :
  endSession (Ex.for_spot "tesla-9") Ex.queued = Ex.queued
  ∧ endSession empty_payload Ex.queued = Ex.queued.
Proof.
  split.
  - apply (endSession_unknown_spot (Ex.for_spot "tesla-9") Ex.queued). reflexivity.
  - apply (endSession_unknown_spot empty_payload Ex.queued). reflexivity.
Defined.

(** X12. [endSession] changes at most one spot, the first whose id is the
    spotId of the call, and takes at most one entry from the queue: all
    spots before it have another id, all other spots are as they were, the
    number of spots is the same, and the queue is as it was, with the spot
    left free, or has lost exactly one entry, whose user is on the spot. *)
Theorem endSession_one_spot payload json i spot :
  JS.find_ref (fun s => strict_eq (s_id s) (p_spotId payload)) (spots json)
    = Some (i, spot) →
  let json' := endSession payload json in
  spots json !! i = Some spot
  ∧ s_id spot = p_spotId payload
  ∧ (∀ j sp, (j < i)%nat → spots json !! j = Some sp → s_id sp ≠ p_spotId payload)
  ∧ (∀ j, j ≠ i → spots json' !! j = spots json !! j)
  ∧ length (spots json') = length (spots json)
  ∧ ((spots json' !! i = Some (set_userId spot VNull) ∧ queue json' = queue json)
     ∨ ∃ k e, queue json !! k = Some e
              ∧ spots json' !! i = Some (set_userId spot (q_userId e))
              ∧ queue json' = delete k (queue json)
              ∧ length (queue json') = pred (length (queue json))).
Proof.
  intros Hf json'.
  assert (∀ (l : list Spot) n sp,
            JS.find_ref (fun s => strict_eq (s_id s) (p_spotId payload)) l = Some (n, sp) →
            ∀ j sp', (j < n)%nat → l !! j = Some sp' → s_id sp' ≠ p_spotId payload)
    as Hfirst.
  { induction l as [|y l IH]; intros n sp; simpl; [done |].
    destruct (strict_eq (s_id y) (p_spotId payload)) eqn:Hy.
    - intros [= <- _] j sp' Hj. lia.
    - destruct (JS.find_ref _ l) as [[m z]|] eqn:Hl; [| done].
      intros [= <- <-] [|j] sp' Hj; simpl.
      + intros [= <-]. by apply strict_eq_false.
      + apply (IH m z eq_refl). lia. }
  pose proof (find_ref_lookup _ _ _ _ Hf) as [Hi Hid]. apply strict_eq_true in Hid.
  split; [done |]. split; [done |]. split; [by apply (Hfirst _ _ _ Hf) |].
  unfold json', endSession. rewrite Hf.
  destruct (backfill_cases (users json) (set_userId spot VNull) (queue json))
    as [(Heq & _) | (k & e & Hk & _ & _ & _ & Heq & _)]; rewrite Heq; simpl.
  - split; [intros j Hj; by apply list_lookup_insert_ne |].
    split; [apply length_insert |]. left.
    split; [| done]. apply list_lookup_insert_eq. by eapply lookup_lt_Some.
  - split; [intros j Hj; by apply list_lookup_insert_ne |].
    split; [apply length_insert |]. right. exists k, e.
    split; [done |]. split; [apply list_lookup_insert_eq; by eapply lookup_lt_Some |].
    split; [done |]. rewrite length_delete; [lia | by eexists].
Qed.

Lemma endSession_one_spot_witness :
  spots (endSession (Ex.for_spot "tesla-1") Ex.busy) !! 1%nat = spots Ex.busy !! 1%nat
  ∧ length (spots (endSession (Ex.for_spot "tesla-1") Ex.busy)) = length (spots Ex.busy).
Proof.
  destruct (endSession_one_spot (Ex.for_spot "tesla-1") Ex.busy 0
              (mkSpot (VStr "tesla-1") (VStr "Tesla") "Tesla #1" (VNum 3)) eq_refl)
    as (_ & _ & _ & Hother & Hlen & _).
  split; [apply Hother; discriminate | exact Hlen].
Defined.

(** ** Filling the free spots, again *)

(** X13. [fillSpots] never displaces anyone: a spot whose userId is truthy
    is exactly as it was after the call, and the number of spots is the
    same. *)
Theorem fillSpots_keeps_occupied json i sp :
  spots json !! i = Some sp →
  truthy (s_userId sp) = true →
  spots (fillSpots json) !! i = Some sp
  ∧ length (spots (fillSpots json)) = length (spots json).
Proof.
  intros Hi Ht. rewrite fillSpots_fillLoop. simpl.
  destruct (fillLoop_picks_spec (users json) (spots json) (queue json)) as (HF & _ & _).
  split.
  - destruct (Forall3_lookup_l _ _ _ _ _ _ HF Hi) as (pick & sp' & _ & Hsp' & Hfilled).
    rewrite Hsp'. destruct pick as [e|]; simpl in Hfilled.
    + destruct Hfilled as (Hfalse & _). congruence.
    + by subst sp'.
  - symmetry. by eapply Forall3_length_lr.
Qed.

Lemma fillSpots_keeps_occupied_witness :
  spots (fillSpots Ex.busy) !! 0%nat
  = Some (mkSpot (VStr "tesla-1") (VStr "Tesla") "Tesla #1" (VNum 3)).
Proof.
  apply (fillSpots_keeps_occupied Ex.busy 0
           (mkSpot (VStr "tesla-1") (VStr "Tesla") "Tesla #1" (VNum 3))); reflexivity.
Defined.

Lemma fillLoop_nothing_fillable us sps : ∀ q,
  Forall (fun e => truthy (q_userId e) = true) q →
  Forall (fun sp' => truthy (s_userId sp') = false →
                     ∀ e, e ∈ (fillLoop us sps q).2 → matches us sp' e = false)
    (fillLoop us sps q).1.
Proof.
  induction sps as [|spot rest IH]; intros q Hq; simpl; [constructor |].
  destruct (truthy (s_userId spot)) eqn:Ht; simpl.
  - specialize (IH q Hq). destruct (fillLoop us rest q) as [rest' q2]. simpl in *.
    constructor; [| done]. congruence.
  - destruct (backfill_cases us spot q)
      as [(Heq & _ & Hnone) | (k & e & Hk & _ & _ & _ & Heq & _)]; rewrite Heq.
    + specialize (IH q Hq).
      destruct (fillLoop_picks_spec us rest q) as (_ & _ & Hsub).
      destruct (fillLoop us rest q) as [rest' q2]. simpl in *.
      constructor; [| done]. intros _ e He. apply Hnone. by eapply elem_of_sublist.
    + assert (Forall (fun e => truthy (q_userId e) = true) (delete k q)) as Hq'.
      { apply (Forall_sublist_of _ _ q); [apply sublist_delete | done]. }
      specialize (IH (delete k q) Hq').
      destruct (fillLoop us rest (delete k q)) as [rest' q2]. simpl in *.
      constructor; [| done]. simpl. intros Hfalse.
      rewrite Forall_forall in Hq. rewrite (Hq e) in Hfalse; [done |].
      by eapply list_elem_of_lookup_2.
Qed.

(** X14. [fillSpots] fills what can be filled: when the userIds of the
    queue entries are truthy, no spot that is free after the call matches
    an entry that is still queued (the user of the entry is registered and
    eligible for the type of the spot). *)
Theorem fillSpots_leaves_nothing_fillable json i sp e :
  queue_users_truthy json →
  spots (fillSpots json) !! i = Some sp →
  truthy (s_userId sp) = false →
  e ∈ queue (fillSpots json) →
  matches (users json) sp e = false.
Proof.
  intros Hq Hi Hfree He. rewrite fillSpots_fillLoop in Hi, He. simpl in Hi, He.
  assert (Forall (fun e => truthy (q_userId e) = true) (queue json)) as Hq'.
  { unfold queue_users_truthy, queued_users in Hq. by apply Forall_fmap in Hq. }
  pose proof (fillLoop_nothing_fillable (users json) (spots json) (queue json) Hq') as H.
  rewrite Forall_forall in H. apply (H sp); [by eapply list_elem_of_lookup_2 | done | done].
Qed.

Lemma fillSpots_leaves_nothing_fillable_witness :
  matches (users Ex.with_stranger)
    (mkSpot (VStr "tesla-2") (VStr "Tesla") "Tesla #2" VNull)
    (mkEntry (VNum 5) (VNum 9) 1) = false.
Proof.
  apply (fillSpots_leaves_nothing_fillable Ex.with_stranger 1
           (mkSpot (VStr "tesla-2") (VStr "Tesla") "Tesla #2" VNull)
           (mkEntry (VNum 5) (VNum 9) 1)).
  - by_evaluation.
  - reflexivity.
  - reflexivity.
  - by_evaluation.
Defined.

Lemma fillLoop_fixed us sps q :
  Forall (fun sp => truthy (s_userId sp) = false → ∀ e, e ∈ q → matches us sp e = false)
    sps →
  fillLoop us sps q = (sps, q).
Proof.
  induction 1 as [| spot rest Hspot _ IH]; simpl; [done |].
  destruct (truthy (s_userId spot)) eqn:Ht; simpl.
  - by rewrite IH.
  - destruct (backfill_cases us spot q)
      as [(Heq & _) | (k & e & Hk & Hm & _)].
    + by rewrite Heq, IH.
    + rewrite (Hspot eq_refl e) in Hm; [done |]. by eapply list_elem_of_lookup_2.
Qed.

(** X15. [fillSpots] is idempotent on a queue whose userIds are truthy: a
    second call right after the first changes nothing. *)
Theorem fillSpots_idempotent json :
  queue_users_truthy json →
  fillSpots (fillSpots json) = fillSpots json.
Proof.
  intros Hq.
  assert (Forall (fun e => truthy (q_userId e) = true) (queue json)) as Hq'.
  { unfold queue_users_truthy, queued_users in Hq. by apply Forall_fmap in Hq. }
  pose proof (fillLoop_nothing_fillable (users json) (spots json) (queue json) Hq') as H.
  rewrite (fillSpots_fillLoop (fillSpots json)).
  assert (users (fillSpots json) = users json
          ∧ spots (fillSpots json) = (fillLoop (users json) (spots json) (queue json)).1
          ∧ queue (fillSpots json) = (fillLoop (users json) (spots json) (queue json)).2
          ∧ lastReset (fillSpots json) = lastReset json) as (Hu & Hs & Hqq & Hl).
  { by rewrite fillSpots_fillLoop. }
  rewrite Hu, Hs, Hqq, Hl, (fillLoop_fixed _ _ _ H). simpl. by rewrite fillSpots_fillLoop.
Qed.

Lemma fillSpots_idempotent_witness :
  fillSpots (fillSpots Ex.with_stranger) = fillSpots Ex.with_stranger.
Proof.
  apply (fillSpots_idempotent Ex.with_stranger). by_evaluation.
Defined.

(** ** Moving by nothing *)

(** X16. [moveQueue] without a delta, or with delta 0, changes no entry:
    it leaves the queue sorted by position, with the entries as they were,
    whether the user is queued or not. *)
Theorem moveQueue_zero payload json :
  p_delta payload = None ∨ p_delta payload = Some 0 →
  moveQueue payload json = set_queue json (JS.sort by_position (queue json)).
Proof.
  intros Hd.
  destruct (moveQueue_cases payload json)
    as [[_ Heq] | (i & j & A & B & Hi & Hj & HA & HB & _ & Heq)]; [done |].
  rewrite Heq. f_equal.
  assert (default 0 (p_delta payload) = 0) as H0 by (by destruct Hd as [-> | ->]).
  rewrite H0 in Hj. assert (j = i) as -> by lia.
  assert (B = A) as -> by congruence.
  rewrite (exchange_insert _ _ _ _ _ HA HA), list_insert_insert_eq.
  apply list_insert_id. rewrite HA. by destruct A.
Qed.

Lemma moveQueue_zero_witness :
  moveQueue (Ex.for_user (VNum 1)) Ex.reordered
  = set_queue Ex.reordered (JS.sort by_position (queue Ex.reordered)).
Proof.
  apply (moveQueue_zero (Ex.for_user (VNum 1)) Ex.reordered). left. reflexivity.
Defined.

(** * Further properties of the handler *)

(** ** Requests that never reach the store *)

(** X17. Without a token, an owner or a repository in the environment,
    every request, whatever its method, is answered 400 'Missing env
    configuration' and the store is not contacted. *)
Theorem unconfigured_is_rejected now env event :
  configured env = false →
  handler now env event = Ret (bad 400 "Missing env configuration").
Proof.
  unfold configured, handler.
  destruct env as [[token|] [owner|] [repo|] path key]; simpl; try done.
  destruct (String.eqb token ""); simpl; [done |].
  destruct (String.eqb owner ""); simpl; [done |].
  by destruct (String.eqb repo "").
Qed.

Lemma unconfigured_is_rejected_witness :
  handler 7 (mkEnv (Some "token") (Some "") (Some "repo") None None)
    (Ex.POST "clearQueue" empty_payload)
  = Ret (bad 400 "Missing env configuration").
Proof.
  apply (unconfigured_is_rejected 7 (mkEnv (Some "token") (Some "") (Some "repo") None None)).
  reflexivity.
Defined.

(** X18. When a key is configured, a POST request that does not carry it
    in its x-key (or, failing that, X-Key) header is answered 403
    'Forbidden' before the store is contacted: nothing is read and nothing
    is written, whatever the action. *)
Theorem forbidden_before_store now env event :
  configured env = true →
  method_of event = "POST" →
  key_accepted env event = false →
  handler now env event = Ret (bad 403 "Forbidden").
Proof.
  unfold configured, method_of, key_accepted, handler. intros Hc Hm Hk. rewrite Hm.
  destruct env as [[token|] [owner|] [repo|] path key]; simpl in *;
    rewrite ?andb_false_r in Hc; try done.
  destruct (String.eqb token ""); [done |].
  destruct (String.eqb owner ""); [done |].
  destruct (String.eqb repo ""); [done |]. simpl.
  apply orb_false_iff in Hk as [-> ->]. done.
Qed.

Lemma forbidden_before_store_witness :
  handler 7 (mkEnv (Some "token") (Some "owner") (Some "repo") None (Some "secret"))
    (mkEvent (Some "post") (Some (mkHeaders (Some "guess") (Some "secret")))
       (Parsed (VStr "clearQueue") None))
  = Ret (bad 403 "Forbidden").
Proof.
  apply (forbidden_before_store 7
           (mkEnv (Some "token") (Some "owner") (Some "repo") None (Some "secret")));
    reflexivity.
Defined.

(** ** Requests that read *)

(** A request that passes the checks made before the read makes one read;
    what follows depends on the reply through [read_outcome]. *)
Lemma handler_served now env event :
  configured env = true →
  (method_of event = "POST" → key_accepted env event = true) →
  ∃ k,
    handler now env event = Get (env_url env) (default "" (GH_TOKEN env)) k
    ∧ ∀ r,
        k r = match read_outcome r with
              | inr msg => Ret (caught msg)
              | inl (json, sha) =>
                  if String.eqb (method_of event) "GET" then Ret (state_response json)
                  else if negb (String.eqb (method_of event) "POST") then
                    Ret (bad 405 "Method not allowed")
                  else
                    try_catch
                      (post now (default "" (GH_OWNER env)) (default "" (GH_REPO env))
                         (str_or (GH_PATH env) "state.json") (default "" (GH_TOKEN env))
                         event json sha)
                      (fun msg => Ret (caught msg))
              end.
Proof.
  unfold configured, method_of, key_accepted, handler, env_url, caught. intros Hc Hk.
  destruct env as [[token|] [owner|] [repo|] path key]; simpl in *;
    rewrite ?andb_false_r in Hc; try done.
  destruct (String.eqb token ""); [done |].
  destruct (String.eqb owner ""); [done |].
  destruct (String.eqb repo ""); [done |]. simpl.
  set (method := JS.toUpperCase (str_or (httpMethod event) "GET")) in *.
  assert ((String.eqb method "POST" && negb (String.eqb (str_or key "") "")
           && negb (bool_decide (headerKey event = Some (str_or key "")))) = false) as ->.
  { destruct (String.eqb method "POST") eqn:Hm; [| done].
    apply String.eqb_eq in Hm. specialize (Hk Hm).
    apply orb_true_iff in Hk as [-> | ->]; simpl; by rewrite ?andb_false_r. }
  eexists. split; [reflexivity |]. intros r. unfold read_outcome. simpl.
  destruct (get_status r =? 404); simpl.
  { destruct (String.eqb method "GET"); [done |]. by destruct (String.eqb method "POST"). }
  destruct (ok (get_status r)); simpl; [| done].
  destruct (get_contents r) as [[json sha]|]; simpl; [| done].
  destruct (String.eqb method "GET"); [done |]. by destruct (String.eqb method "POST").
Qed.





(** X21. A read that fails ends the request, whatever its method and
    action: when the store answers the read with a status that is neither
    404 nor in 200-299, the response is 500 'Error: Repo read failed:
    <status>', no write is attempted and the store is left as it was. *)
Theorem failed_read_is_surfaced now env event :
  configured env = true →
  (method_of event = "POST" → key_accepted env event = true) →
  ∀ (S : Type) (get : S → string → GetReply) (put : S → string → PutBody → S * Z) st,
    let status := get_status (get st (env_url env)) in
    status ≠ 404 →
    ok status = false →
    run get put st (handler now env event)
    = (st, inl (bad 500 ("Error: Repo read failed: " +:+ pretty status))).
Proof.
  intros Hc Hk S get put st status H404 Hok.
  destruct (handler_served now env event Hc Hk) as (k & -> & Hk').
  simpl. rewrite Hk'. unfold read_outcome. fold status.
  destruct (Z.eqb_spec status 404); [done |]. by rewrite Hok.
Qed.

Lemma failed_read_is_surfaced_witness :
  run (fun (_ : unit) _ => mkGetReply 503 None) (fun st _ _ => (st, 200)) tt
    (handler 7 Ex.env (Ex.POST "clearQueue" empty_payload))
  = (tt, inl (bad 500 "Error: Repo read failed: 503")).
Proof.
  apply (failed_read_is_surfaced 7 Ex.env (Ex.POST "clearQueue" empty_payload));
    [reflexivity | reflexivity | discriminate | reflexivity].
Defined.

(** X22. An exception thrown while the request is handled is caught and
    never followed by a write: for a POST request whose body does not
    parse, or whose action throws (an [addUser] whose name is a number or
    [true]), the handler sends no PUT request, leaves any store as it was
    and answers 500 with the message of the exception. *)
Theorem thrown_errors_write_nothing now env event :
  configured env = true →
  method_of event = "POST" →
  key_accepted env event = true →
  (request event = None
   ∨ ∃ action payload,
       request event = Some (action, payload)
       ∧ ∀ json, ∃ msg, applyAction now action payload json = Throw msg) →
  (∀ gets puts, writes (handler now env event) gets puts = [])
  ∧ ∀ (S : Type) (get : S → string → GetReply) (put : S → string → PutBody → S * Z) st,
      ∃ msg, run get put st (handler now env event) = (st, inl (caught msg)).
Proof.
  intros Hc Hm Hk Hthrow.
  destruct (handler_served now env event Hc (fun _ => Hk)) as (k & -> & Hk').
  assert (∀ r, ∃ msg, k r = Ret (caught msg)) as Hcaught.
  { intros r. rewrite Hk', Hm. simpl.
    destruct (read_outcome r) as [[json sha]| msg]; [| by exists msg].
    unfold post, request in *.
    destruct Hthrow as [Hnone | (action & payload & Hsome & Hth)].
    - destruct (body event) as [| msg | a p]; try done. by exists msg.
    - destruct (Hth json) as [msg Hmsg]. exists msg.
      destruct (body event) as [| m | a p]; try done; injection Hsome as <- <-.
      + unfold applyAction in Hmsg. simpl in Hmsg. discriminate Hmsg.
      + simpl. by rewrite Hmsg. }
  split.
  - intros gets puts. destruct gets as [|r gets]; simpl.
    + by destruct (Hcaught (mkGetReply 404 None)) as [msg ->].
    + by destruct (Hcaught r) as [msg ->].
  - intros S get put st. simpl.
    destruct (Hcaught (get st (env_url env))) as [msg ->]. by exists msg.
Qed.

Lemma thrown_errors_write_nothing_witness :
  (∀ gets puts,
     writes (handler 7 Ex.env (mkEvent (Some "POST") None (Unparsable "Unexpected token")))
       gets puts = [])
  ∧ (∀ gets puts,
       writes (handler 7 Ex.env
                 (Ex.POST "addUser"
                    (mkPayload (VNum 42) VUndefined VUndefined None VUndefined
                       (p_doc empty_payload))))
         gets puts = []).
Proof.
  split.
  - apply (thrown_errors_write_nothing 7 Ex.env
             (mkEvent (Some "POST") None (Unparsable "Unexpected token")));
      [reflexivity | reflexivity | reflexivity |]. left. reflexivity.
  - apply (thrown_errors_write_nothing 7 Ex.env
             (Ex.POST "addUser"
                (mkPayload (VNum 42) VUndefined VUndefined None VUndefined
                   (p_doc empty_payload))));
      [reflexivity | reflexivity | reflexivity |].
    right. eexists _, _. split; [reflexivity |]. intros json. eexists. reflexivity.
Defined.

(** ** Requests that write *)

(** X23. An accepted action is written exactly once, even when it changed
    nothing: for a POST request that passes the checks, after a read that
    succeeded, when the engine returns a document the handler sends one PUT
    request, to the location that was read, whose content is that document
    and whose sha is the sha of the read (none when there was no object or
    the sha is empty); the response is 200 when the store accepts the
    write and 500 with the status when it does not. *)
Theorem accepted_action_writes_once now env event action payload :
  configured env = true →
  method_of event = "POST" →
  key_accepted env event = true →
  request event = Some (action, payload) →
  ∀ (S : Type) (get : S → string → GetReply) (put : S → string → PutBody → S * Z) st
    json sha json',
    read_outcome (get st (env_url env)) = inl (json, sha) →
    applyAction now action payload json = Next json' →
    let b := {| put_message := "EV state update"; put_content := json';
                put_sha := if truthy_str sha then sha else None |} in
    let written := put st (env_url env) b in
    writes (handler now env event) [get st (env_url env)] [written.2] = [b]
    ∧ run get put st (handler now env event)
      = (written.1, inl (if ok written.2 then ok_response else write_failed written.2)).
Proof.
  intros Hc Hm Hk Hreq S get put st json sha json' Hread Ha b written.
  destruct (handler_served now env event Hc (fun _ => Hk)) as (k & -> & Hk').
  assert (∃ k', k (get st (env_url env))
                = Put (env_url env) (default "" (GH_TOKEN env)) b k'
                ∧ ∀ status,
                    k' status
                    = Ret (if ok status then ok_response else write_failed status))
    as (k' & Hput & Hk'').
  { rewrite Hk', Hread, Hm. simpl. unfold post, request in *.
    destruct (body event) as [| m | a p]; try done; injection Hreq as <- <-.
    - unfold applyAction in Ha. simpl in Ha. discriminate Ha.
    - simpl. rewrite Ha. simpl. eexists. split; [reflexivity |].
      intros status. simpl. by destruct (ok status). }
  split.
  - simpl. rewrite Hput. simpl. by rewrite Hk''.
  - simpl. rewrite Hput. simpl. fold written. destruct written as [st' status].
    simpl. by rewrite Hk''.
Qed.

Lemma accepted_action_writes_once_witness :
  writes (handler 7 Ex.env (Ex.POST "removeFromQueue" (Ex.for_user (VNum 9))))
    [mkGetReply 200 (Some (Ex.queued, "v4"))] [200]
  = [ {| put_message := "EV state update"; put_content := Ex.queued;
         put_sha := Some "v4" |} ].
Proof.
  apply (accepted_action_writes_once 7 Ex.env
           (Ex.POST "removeFromQueue" (Ex.for_user (VNum 9)))
           (VStr "removeFromQueue") (Ex.for_user (VNum 9))
           eq_refl eq_refl eq_refl eq_refl unit
           (fun _ _ => mkGetReply 200 (Some (Ex.queued, "v4"))) (fun st _ _ => (st, 200)) tt
           Ex.queued (Some "v4") Ex.queued eq_refl eq_refl).
Defined.

(** ** Serving the queue in priority order *)

Lemma StronglySorted_lookup {A : Type} (R : A → A → Prop) (l : list A) : ∀ i j a b,
  StronglySorted R l → (i < j)%nat → l !! i = Some a → l !! j = Some b → R a b.
Proof.
  induction l as [|h t IH]; intros i j a b Hs Hij Hi Hj; [done |].
  apply StronglySorted_inv in Hs as [Hs Hh].
  destruct i as [|i], j as [|j]; simpl in *; try lia.
  - injection Hi as ->. rewrite Forall_forall in Hh. apply Hh.
    by eapply list_elem_of_lookup_2.
  - apply (IH i j); [done | lia | done | done].
Qed.

(** X24. On a queue whose array is in priority order, [endSession] serves
    the lowest position: when some queue entry matches the spot of the
    call (its user is registered and eligible for the type of the spot),
    the spot goes to the user of a matching entry whose position is no
    larger than that of any matching entry, and that entry leaves the
    queue. *)
Theorem endSession_serves_lowest_position payload json i spot e' :
  JS.find_ref (fun s => strict_eq (s_id s) (p_spotId payload)) (spots json)
    = Some (i, spot) →
  in_priority_order (queue json) →
  e' ∈ queue json →
  matches (users json) spot e' = true →
  ∃ k e,
    queue json !! k = Some e
    ∧ matches (users json) spot e = true
    ∧ q_position e <= q_position e'
    ∧ spots (endSession payload json) !! i = Some (set_userId spot (q_userId e))
    ∧ queue (endSession payload json) = delete k (queue json).
Proof.
  intros Hf Hs He' Hm'. apply in_priority_order_strong in Hs.
  unfold endSession. rewrite Hf. apply find_ref_lookup in Hf as [Hi _].
  destruct (backfill_cases (users json) (set_userId spot VNull) (queue json))
    as [(_ & _ & Hnone) | (k & e & Hk & Hm & Hfirst & _ & Heq & _)].
  { specialize (Hnone e' He'). unfold matches in *. simpl in Hnone. congruence. }
  assert (∀ x, matches (users json) (set_userId spot VNull) x = matches (users json) spot x)
    as Hsame by done.
  rewrite Hsame in Hm.
  rewrite Heq. simpl. exists k, e. split; [done |]. split; [done |].
  split; [| split; [| done]].
  - apply list_elem_of_lookup_1 in He' as [k' Hk'].
    destruct (Nat.lt_trichotomy k k') as [Hlt | [-> | Hgt]].
    + by apply (StronglySorted_lookup _ _ k k' e e' Hs).
    + assert (e = e') as -> by congruence. lia.
    + specialize (Hfirst k' e' Hgt Hk'). rewrite Hsame in Hfirst. congruence.
  - apply list_lookup_insert_eq. by eapply lookup_lt_Some.
Qed.

Lemma endSession_serves_lowest_position_witness :
  ∃ k e,
    queue Ex.busy !! k = Some e
    ∧ matches (users Ex.busy) (mkSpot (VStr "tesla-1") (VStr "Tesla") "Tesla #1" (VNum 3)) e
      = true
    ∧ q_position e <= 2.
Proof.
  destruct (endSession_serves_lowest_position (Ex.for_spot "tesla-1") Ex.busy 0
              (mkSpot (VStr "tesla-1") (VStr "Tesla") "Tesla #1" (VNum 3))
              (mkEntry (VNum 5) (VNum 2) 2)) as (k & e & H1 & H2 & H3 & _).
  - reflexivity.
  - repeat constructor; simpl; lia.
  - by_evaluation.
  - reflexivity.
  - exists k, e. split; [exact H1 |]. split; [exact H2 | exact H3].
Defined.
